(** * XlaLaunchKernel: compile-cache-and-launch pipeline

    A shallow embedding of [oneflow/xla/of2xla/xla_launch_kernel.cpp]:
    [AliasMutableInputsAndOutputs], [BuildLocalExecutable],
    [LaunchExecutable] and [ForwardDataContent], together with the
    properties of the pipeline that the design document states.

    Conventions.
    - A [CHECK], [CHECK_EQ], [CHECK_GT] or [OF_CHECK_AND_ASSIGN] that fails
      aborts the process; it is the [Fatal] outcome, tagged with the check.
    - Pointers are addresses in [Z]; [nullptr] is [0].
    - [std::vector] is [list]; [v[i]] is the lookup [v !! i], and
      [v.size()] is [length v].
    - The calls the kernel makes to its collaborators (cache, compiler,
      launch context, executable, stream) are logged, in program order, in
      the [trace] of the [World]. *)

From stdpp Require Import gmap strings list fin_maps.
From Stdlib Require Import ZArith Lia.

Local Open Scope Z_scope.
Set Warnings "-register-all".

(** ** Fatal checks *)

Inductive CheckFailure : Type :=
| AliasNamesSizeMismatch      (* line 140: CHECK_EQ(entry_blobs.size(), entry_blob_names.size()) *)
| BuildNeedsLaunchConf        (* line 37:  CHECK(has_xla_launch_conf()) *)
| ForwardNeedsLaunchConf      (* line 171: CHECK(has_xla_launch_conf()) *)
| ExecutableBuiltFailed       (* line 184: CHECK(compile_result) *)
| AllocationIndicesMismatch   (* line 190: CHECK_EQ(return_blobs.size(), allocation_indices.size()) *)
| InputShapesSizeMismatch     (* line 65:  CHECK_EQ(entry_blobs.size(), input_shapes.size()) *)
| NeedOneRealOutput           (* line 67:  CHECK_GT(return_blobs.size(), 0) *)
| TupleInputNotAllowed        (* line 76:  CHECK(!on_device_shape.IsTuple()) *)
| RunFailed                   (* line 97:  OF_CHECK_AND_ASSIGN(run_result, ...) *)
| ResultShapeNotTuple         (* line 114: CHECK(run_result.on_host_shape().IsTuple()) *)
| ResultBufferMismatch        (* line 121: CHECK_EQ(buffer.opaque(), output->mut_dptr()) *)
| VectorIndexOutOfRange.      (* operator[] past the end: guarded by the size checks *)

Inductive outcome (A : Type) : Type :=
| Ok (a : A)
| Fatal (e : CheckFailure).
Arguments Ok {A} a.
Arguments Fatal {A} e.

Definition is_fatal {A} (o : outcome A) : bool :=
  match o with Ok _ => false | Fatal _ => true end.

(** [for (int i = 0; i < n; ++i) body], the body working on a state [S]
    and stopping the whole computation at the first fatal check. *)
Fixpoint for_each {S : Type} (idxs : list nat)
    (body : nat -> S -> outcome S) (s : S) : outcome S :=
  match idxs with
  | [] => Ok s
  | i :: rest =>
      match body i s with
      | Ok s' => for_each rest body s'
      | Fatal e => Fatal e
      end
  end.

Definition for_range {S : Type} (n : nat)
    (body : nat -> S -> outcome S) (s : S) : outcome S :=
  for_each (seq 0 n) body s.

(** ** Machine integers *)

Definition INT_MAX : Z := 2 ^ 31 - 1.

(** [static_cast<int>(x)] of a [size_t]: reduction into the 32-bit
    two's-complement range. *)
Definition static_cast_int (x : Z) : Z :=
  (x + 2 ^ 31) mod 2 ^ 32 - 2 ^ 31.

(** ** Data model *)

Definition ptr : Type := Z.
Definition nullptr : ptr := 0.

(** [xla::Shape]: an array of some element type, or a tuple of shapes. *)
Inductive Shape : Type :=
| ArrayShape (element_type : Z) (dimensions : list Z)
| TupleShape (tuple_shapes : list Shape).

Definition IsTuple (s : Shape) : bool :=
  match s with
  | TupleShape _ => true
  | ArrayShape _ _ => false
  end.

Definition ShapeIndex : Type := list Z.

(** [xla::XlaBuilder::InputOutputAlias], fields in declaration order. *)
Record InputOutputAlias : Type := mkAlias {
  output_index : ShapeIndex;
  param_number : Z;
  param_index : ShapeIndex
}.

(** The part of a [Blob] the kernel reads: its shape and element type (for
    the signature), its data pointer ([dptr] and [mut_dptr] return the
    same address) and the byte size of its data content. *)
Record Blob : Type := mkBlob {
  blob_shape : list Z;
  blob_data_type : Z;
  dptr : ptr;
  ByteSizeOfDataContentField : Z
}.

Definition mut_dptr (b : Blob) : ptr := dptr b.

(** [mola::LaunchAttrHelper]: which argument names are mutable, and the
    output name each one maps to. The class is declared in
    [xla_launch_attr.h]; its two queries are taken as they are. *)
Record LaunchAttrHelper : Type := mkAttr {
  IsMutableArg : string -> bool;
  OutputArg : string -> string
}.

(** ** Alias resolution *)

(** The five vectors [AliasMutableInputsAndOutputs] can reach through its
    parameters: the two it takes by const reference and the three it
    takes by pointer. *)
Record LaunchFrame : Type := mkFrame {
  entry_blobs : list Blob;
  entry_blob_names : list string;
  return_blobs : list Blob;
  return_blob_names : list string;
  aliases : list InputOutputAlias
}.

(** Body of the loop at lines 141-149. The index [i] is the value of the
    [int] loop variable, which the source can hold for vectors of at most
    [INT_MAX] entries; statements about input slots are made within that
    bound. *)
Definition alias_step (attr : LaunchAttrHelper) (i : nat) (f : LaunchFrame)
    : outcome LaunchFrame :=
  match entry_blob_names f !! i, entry_blobs f !! i with
  | Some entry_name, Some blob =>
      if IsMutableArg attr entry_name then
        let alias :=
          {| output_index := [static_cast_int (Z.of_nat (length (return_blobs f)))];
             param_number := Z.of_nat i;
             param_index := [] |} in
        Ok {| entry_blobs := entry_blobs f;
              entry_blob_names := entry_blob_names f;
              return_blobs := return_blobs f ++ [blob];
              return_blob_names := return_blob_names f ++ [OutputArg attr entry_name];
              aliases := aliases f ++ [alias] |}
      else Ok f
  | _, _ => Fatal VectorIndexOutOfRange
  end.

Definition AliasMutableInputsAndOutputs (attr : LaunchAttrHelper)
    (f : LaunchFrame) : outcome LaunchFrame :=
  if negb (length (entry_blobs f) =? length (entry_blob_names f))%nat
  then Fatal AliasNamesSizeMismatch
  else for_range (length (entry_blobs f)) (alias_step attr) f.

(** *** The resolution as the design document words it

    [resolve] returns the extra return tensors, the extra return names and
    the alias entries, given the number of return tensors already present.
    It is written from the document, to be compared with the loop. *)

Definition is_mutable_slot (attr : LaunchAttrHelper) (entry_names : list string)
    (i : nat) : bool :=
  match entry_names !! i with
  | Some n => IsMutableArg attr n
  | None => false
  end.

(** Indices of the entries declared mutable, in entry-list order. *)
Definition mutable_slots (attr : LaunchAttrHelper) (entry_names : list string)
    : list nat :=
  List.filter (is_mutable_slot attr entry_names) (seq 0 (length entry_names)).

Definition alias_entry (pre_existing : nat) (k i : nat) : InputOutputAlias :=
  {| output_index := [Z.of_nat (pre_existing + k)];
     param_number := Z.of_nat i;
     param_index := [] |}.

Definition extras_of (attr : LaunchAttrHelper) (entry_names : list string)
    (entry_tensors : list Blob) (pre_existing : nat) (slots : list nat)
    : list Blob * list string * list InputOutputAlias :=
  (omap (fun i => entry_tensors !! i) slots,
   omap (fun i => OutputArg attr <$> entry_names !! i) slots,
   imap (alias_entry pre_existing) slots).

Definition resolve (attr : LaunchAttrHelper) (entry_names : list string)
    (entry_tensors : list Blob) (pre_existing : nat)
    : list Blob * list string * list InputOutputAlias :=
  extras_of attr entry_names entry_tensors pre_existing
    (mutable_slots attr entry_names).

(** A frame extended by the extras of a resolution. *)
Definition extend_frame (f : LaunchFrame)
    (x : list Blob * list string * list InputOutputAlias) : LaunchFrame :=
  {| entry_blobs := entry_blobs f;
     entry_blob_names := entry_blob_names f;
     return_blobs := return_blobs f ++ x.1.1;
     return_blob_names := return_blob_names f ++ x.1.2;
     aliases := aliases f ++ x.2 |}.

(** [f'] is [f] with elements appended to the three output vectors. *)
Definition frame_extends (f f' : LaunchFrame) : Prop :=
  entry_blobs f' = entry_blobs f /\
  entry_blob_names f' = entry_blob_names f /\
  return_blobs f `prefix_of` return_blobs f' /\
  return_blob_names f `prefix_of` return_blob_names f' /\
  aliases f `prefix_of` aliases f'.

(** Every element of [l] is still in [l'], unmodified, at its index. *)
Definition keeps_elements {A} (l l' : list A) : Prop :=
  forall i x, l !! i = Some x -> l' !! i = Some x.

(** ** Devices, buffers and executables *)

(** Modelled from the spec: the two device classes the blocking policy
    distinguishes ([DeviceType] is declared outside these sources):
    [kCPU] is the host class, [kGPU] the accelerator class. *)
Inductive DeviceType : Type := kCPU | kGPU.

#[global] Instance DeviceType_eq_dec : EqDecision DeviceType.
Proof. solve_decision. Defined.

(** [se::DeviceMemoryBase(opaque, size)]. *)
Record DeviceMemoryBase : Type := mkMem {
  opaque : ptr;
  mem_size : Z
}.

(** [xla::ShapedBuffer(on_host_shape, on_device_shape, platform,
    device_ordinal)] with the buffer set at the root index [{}], the only
    index the kernel sets. *)
Record ShapedBuffer : Type := mkShapedBuffer {
  on_host_shape : Shape;
  on_device_shape : Shape;
  buffer_platform : Z;
  buffer_device_ordinal : Z;
  root_buffer : DeviceMemoryBase
}.

Record ExecutableRunOptions : Type := mkRunOptions {
  run_stream : Z;
  run_allocator : Z;
  run_intra_op_thread_pool : Z;
  run_rng_seed : Z
}.

(** What [LaunchExecutable] reads of the [xla::ScopedShapedBuffer] a run
    returns: its host shape and the buffer stored at a shape index. *)
Record RunResult : Type := mkRunResult {
  result_host_shape : Shape;
  result_buffer : ShapeIndex -> DeviceMemoryBase
}.

Inductive StatusOr (A : Type) : Type :=
| StatusOk (a : A)
| StatusError.
Arguments StatusOk {A} a.
Arguments StatusError {A}.

(** Device memory: the byte stored at each address. The kernel itself
    never reads or writes it; only a run of the executable does. *)
Abbreviation Memory := (gmap Z Z).

(** [xla::LocalExecutable]: the backend's run, as a transformer of device
    memory, and the allocation indices of its result
    ([xla::ResultAllocationIndices]). An argument slot is [None] while it
    still holds the null pointer the vector was created with. *)
Record LocalExecutable : Type := mkExecutable {
  RunAsync : list (option ShapedBuffer) -> ExecutableRunOptions ->
             Memory -> StatusOr RunResult * Memory;
  ResultAllocationIndices : list Z
}.

(** [mola::CompilationResult]. *)
Record CompilationResult : Type := mkCompilationResult {
  executable : LocalExecutable;
  xla_input_shapes : list Shape;
  xla_output_shape : Shape
}.

(** [xla::LocalClient]: its platform and its transfer manager's
    [HostShapeToDeviceShape]. *)
Record LocalClient : Type := mkClient {
  client_platform : Z;
  HostShapeToDeviceShape : Shape -> Shape
}.

(** [mola::XlaLaunchContext]: the accessors the kernel uses. *)
Record XlaLaunchContext : Type := mkLaunchContext {
  device_ordinal : Z;
  builder_name : string;
  client : LocalClient;
  stream : Z;
  allocator : Z;
  host_device : Z
}.

(** ** Signature and compilation cache *)

(** Modelled from the spec: the signature ([mola::Signature] and
    [mola::ComputeSignature] are declared outside these sources) is the
    subgraph identity, the device ordinal and the ordered sequence of
    (shape, element type) of the entry tensors. *)
Abbreviation Signature := (string * Z * list (list Z * Z))%type.

Definition ComputeSignature (name : string) (ordinal : Z)
    (entries : list Blob) : Signature :=
  (name, ordinal, (fun b => (blob_shape b, blob_data_type b)) <$> entries).

(** Modelled from the spec: the compilation cache
    ([mola::XlaCompilationCache] is declared outside these sources) maps a
    signature to a compiled artifact; [get] is a pure lookup and [record]
    inserts or overwrites the entry of the signature. *)
Abbreviation XlaCompilationCache := (gmap Signature CompilationResult).

Definition cache_get (c : XlaCompilationCache) (sig : Signature)
    : option CompilationResult := c !! sig.

Definition cache_record (c : XlaCompilationCache) (sig : Signature)
    (r : CompilationResult) : XlaCompilationCache := <[sig := r]> c.

(** ** The kernel and the world it runs in *)

(** The immutable part of an [XlaLaunchKernel<device_type>] and the
    collaborators it calls. [entry_blob_name bn] is
    [BlobName(BnInOp2Lbi(bn))]; [new_launch_ctx] is the constructor of
    [mola::XlaLaunchContext]; [Compile] is
    [XlaGraphCompiler(client, builder).Compile(&graph, ...)] for the graph
    of the kernel's launch configuration. *)
Record XlaLaunchKernel : Type := mkKernel {
  device_type : DeviceType;
  op_name : string;
  has_xla_launch_conf : bool;
  launch_attr : LaunchAttrHelper;
  input_bns : list string;
  output_bns : list string;
  entry_blob_name : string -> string;
  new_launch_ctx : string -> DeviceType -> Z -> XlaLaunchContext;
  Compile : XlaLaunchContext -> list Blob -> list Blob -> list string ->
            list string -> list InputOutputAlias -> CompilationResult;
  GetXLARandomSeed : Z
}.

(** Calls, in program order. *)
Inductive Event : Type :=
| CallAliasMutableInputsAndOutputs
| CallGetRecord (sig : Signature)
| CallCompile (entries returns : list Blob) (entry_names return_names : list string)
              (alias_entries : list InputOutputAlias)
| CallRecord (sig : Signature)
| CallPopulateResultBuffers (returns : list Blob) (allocation_indices : list Z)
| CallRunAsync (arguments : list (option ShapedBuffer)) (options : ExecutableRunOptions)
| CallBlockHostUntilDone (on_stream : Z).

(** The mutable state: the kernel's [compilation_cache_] member ([None]
    while the pointer is still null), the log of calls, device memory.
    Device memory is taken in stream order: its contents once the work
    queued on the stream so far has completed, which is what the host
    sees after it has waited on the stream, and not before. *)
Record World : Type := mkWorld {
  compilation_cache_ : option XlaCompilationCache;
  trace : list Event;
  device_memory : Memory
}.

(** A computation on the world that a fatal check may abort; the world
    it returns on [Fatal] is the one at the abort. *)
Definition M (A : Type) : Type := World -> outcome A * World.

Definition ret {A} (a : A) : M A := fun w => (Ok a, w).

Definition bind {A B} (m : M A) (k : A -> M B) : M B :=
  fun w =>
    match m w with
    | (Ok a, w') => k a w'
    | (Fatal e, w') => (Fatal e, w')
    end.

Notation "'do' x <- m ; k" := (bind m (fun x => k))
  (at level 10, x name, m at level 100, k at level 200, only parsing).

Definition fatal {A} (e : CheckFailure) : M A := fun w => (Fatal e, w).

(** [CHECK(cond)] *)
Definition CHECK (cond : bool) (e : CheckFailure) : M unit :=
  if cond then ret tt else fatal e.

(** A computation that only checks, run without touching the world. *)
Definition lift {A} (o : outcome A) : M A := fun w => (o, w).

Definition logged (ev : Event) (w : World) : World :=
  {| compilation_cache_ := compilation_cache_ w;
     trace := trace w ++ [ev];
     device_memory := device_memory w |}.

Definition log (ev : Event) : M unit := fun w => (Ok tt, logged ev w).

(** The same for computations that only check. *)
Definition obind {A B} (o : outcome A) (k : A -> outcome B) : outcome B :=
  match o with
  | Ok a => k a
  | Fatal e => Fatal e
  end.

Notation "'check' x <- o ; k" := (obind o (fun x => k))
  (at level 10, x name, o at level 100, k at level 200, only parsing).

(** [v[i]] *)
Definition at_index {A} (v : list A) (i : nat) : outcome A :=
  match v !! i with
  | Some x => Ok x
  | None => Fatal VectorIndexOutOfRange
  end.

(** ** BuildLocalExecutable (lines 15-51) *)

(** [if (!compilation_cache_) compilation_cache_.reset(new ...)] *)
Definition ensure_cache : M unit :=
  fun w =>
    (Ok tt,
     match compilation_cache_ w with
     | Some _ => w
     | None => {| compilation_cache_ := Some ∅;
                  trace := trace w;
                  device_memory := device_memory w |}
     end).

Definition the_cache (w : World) : XlaCompilationCache :=
  default ∅ (compilation_cache_ w).

(** [compilation_cache_->GetRecord(signature)] *)
Definition GetRecord (sig : Signature) : M (option CompilationResult) :=
  do _ <- log (CallGetRecord sig);
  fun w => (Ok (cache_get (the_cache w) sig), w).

(** [compilation_cache_->Record(signature, result)] *)
Definition Record_ (sig : Signature) (r : CompilationResult) : M unit :=
  do _ <- log (CallRecord sig);
  fun w => (Ok tt, {| compilation_cache_ := Some (cache_record (the_cache w) sig r);
                      trace := trace w;
                      device_memory := device_memory w |}).

Definition call_Compile (k : XlaLaunchKernel) (launch_ctx : XlaLaunchContext)
    (entries returns : list Blob) (entry_names return_names : list string)
    (alias_entries : list InputOutputAlias) : M CompilationResult :=
  do _ <- log (CallCompile entries returns entry_names return_names alias_entries);
  ret (Compile k launch_ctx entries returns entry_names return_names alias_entries).

Definition force_compile : bool := false.

(** [compile_result] is the in-out parameter [*compile_result]; [None] is
    the null pointer. *)
Definition BuildLocalExecutable (k : XlaLaunchKernel)
    (launch_ctx : XlaLaunchContext)
    (entries returns : list Blob) (entry_names return_names : list string)
    (alias_entries : list InputOutputAlias)
    (compile_result : option CompilationResult)
    : M (option CompilationResult) :=
  do _ <- ensure_cache;
  let signature :=
    ComputeSignature (builder_name launch_ctx) (device_ordinal launch_ctx) entries in
  do compile_result <-
    (if negb force_compile then GetRecord signature else ret compile_result);
  match compile_result with
  | Some r => ret (Some r)
  | None =>
      do _ <- CHECK (has_xla_launch_conf k) BuildNeedsLaunchConf;
      do result <- call_Compile k launch_ctx entries returns entry_names
                     return_names alias_entries;
      do _ <- Record_ signature result;
      GetRecord signature
  end.

(** ** LaunchExecutable (lines 53-130) *)

(** Body of the loop at lines 72-95: the shaped buffer of input [i],
    stored in slot [i] of [arguments]. *)
Definition marshal_step (launch_ctx : XlaLaunchContext)
    (entries : list Blob) (input_shapes : list Shape) (returns : list Blob)
    (i : nat) (arguments : list (option ShapedBuffer))
    : outcome (list (option ShapedBuffer)) :=
  check shape <- at_index input_shapes i;
  let device_shape := HostShapeToDeviceShape (client launch_ctx) shape in
  if IsTuple device_shape then Fatal TupleInputNotAllowed else
  check entry <- at_index entries i;
  let data_size := ByteSizeOfDataContentField entry in
  let data_ptr := dptr entry in
  check data_ptr <-
    (if (0 <? data_size) && (data_ptr =? nullptr)
     then check first <- at_index returns 0%nat; Ok (dptr first)
     else Ok data_ptr);
  let memory_base := {| opaque := data_ptr; mem_size := data_size |} in
  let shaped_buffer :=
    {| on_host_shape := shape;
       on_device_shape := shape;
       buffer_platform := client_platform (client launch_ctx);
       buffer_device_ordinal := device_ordinal launch_ctx;
       root_buffer := memory_base |} in
  Ok (<[i := Some shaped_buffer]> arguments).

(** Lines 69-95: [arguments] is created with [argument_size] null
    pointers and filled slot by slot. *)
Definition marshal_arguments (launch_ctx : XlaLaunchContext)
    (entries : list Blob) (input_shapes : list Shape) (returns : list Blob)
    : outcome (list (option ShapedBuffer)) :=
  let argument_size := length input_shapes in
  let arguments : list (option ShapedBuffer) := replicate argument_size None in
  for_range (length input_shapes)
    (marshal_step launch_ctx entries input_shapes returns) arguments.

(** [executable->RunAsync(arguments, run_options)]: the run is queued on
    the stream, so its effect enters device memory in stream order;
    whether the host has seen it complete is told by the wait logged
    after it, or by its absence. *)
Definition call_RunAsync (exe : LocalExecutable)
    (arguments : list (option ShapedBuffer)) (options : ExecutableRunOptions)
    : M (StatusOr RunResult) :=
  do _ <- log (CallRunAsync arguments options);
  fun w =>
    let '(result, mem) := RunAsync exe arguments options (device_memory w) in
    (Ok result, {| compilation_cache_ := compilation_cache_ w;
                   trace := trace w;
                   device_memory := mem |}).

(** [launch_ctx->stream()->BlockHostUntilDone()] *)
Definition BlockHostUntilDone (on_stream : Z) : M unit :=
  log (CallBlockHostUntilDone on_stream).

(** The run options of lines 100-104. *)
Definition run_options_of (k : XlaLaunchKernel) (launch_ctx : XlaLaunchContext)
    : ExecutableRunOptions :=
  {| run_stream := stream launch_ctx;
     run_allocator := allocator launch_ctx;
     run_intra_op_thread_pool := host_device launch_ctx;
     run_rng_seed := GetXLARandomSeed k |}.

(** The lambda at lines 97-111. *)
Definition run_lambda (k : XlaLaunchKernel) (launch_ctx : XlaLaunchContext)
    (exe : LocalExecutable) (arguments : list (option ShapedBuffer))
    (block_host_until_done : bool) : M (StatusOr RunResult) :=
  let run_options := run_options_of k launch_ctx in
  do result <- call_RunAsync exe arguments run_options;
  do _ <- (if block_host_until_done
           then BlockHostUntilDone (stream launch_ctx)
           else ret tt);
  ret result.

Definition OF_CHECK_AND_ASSIGN {A} (s : StatusOr A) : M A :=
  match s with
  | StatusOk a => ret a
  | StatusError => fatal RunFailed
  end.

(** Body of the loop at lines 117-129. *)
Definition translate_step (returns : list Blob) (run_result : RunResult)
    (i : nat) (_ : unit) : outcome unit :=
  check output <- at_index returns i;
  let buffer := result_buffer run_result [Z.of_nat i] in
  if negb (opaque buffer =? nullptr) then
    if opaque buffer =? mut_dptr output then Ok tt
    else Fatal ResultBufferMismatch
  else Ok tt.

(** Lines 116-129. *)
Definition translate_results (returns : list Blob) (run_result : RunResult)
    : outcome unit :=
  for_range (length returns) (translate_step returns run_result) tt.

Definition LaunchExecutable (k : XlaLaunchKernel) (launch_ctx : XlaLaunchContext)
    (exe : LocalExecutable) (entries : list Blob) (input_shapes : list Shape)
    (returns : list Blob) (output_shape : Shape) (block_host_until_done : bool)
    : M unit :=
  do _ <- CHECK (length entries =? length input_shapes)%nat InputShapesSizeMismatch;
  do _ <- CHECK (0 <? length returns)%nat NeedOneRealOutput;
  do arguments <- lift (marshal_arguments launch_ctx entries input_shapes returns);
  do status <- run_lambda k launch_ctx exe arguments block_host_until_done;
  do run_result <- OF_CHECK_AND_ASSIGN status;
  do _ <- CHECK (IsTuple (result_host_shape run_result)) ResultShapeNotTuple;
  lift (translate_results returns run_result).

(** ** ForwardDataContent (lines 152-204) *)

Definition call_AliasMutableInputsAndOutputs (attr : LaunchAttrHelper)
    (f : LaunchFrame) : M LaunchFrame :=
  do _ <- log CallAliasMutableInputsAndOutputs;
  lift (AliasMutableInputsAndOutputs attr f).

(** [launch_ctx.PopulateResultBuffers(return_blobs, allocation_indices)] *)
Definition PopulateResultBuffers (returns : list Blob)
    (allocation_indices : list Z) : M unit :=
  log (CallPopulateResultBuffers returns allocation_indices).

(** The blocking flag of lines 197-200. *)
Definition blocking_policy (d : DeviceType) : bool :=
  let block_host_until_done := true in
  if decide (d = kGPU) then false else block_host_until_done.

(** The vectors filled by the loops at lines 159-169, with an empty alias
    list (line 174). *)
Definition initial_frame (k : XlaLaunchKernel) (BnInOp2Blob : string -> Blob)
    : LaunchFrame :=
  {| entry_blobs := BnInOp2Blob <$> input_bns k;
     entry_blob_names := entry_blob_name k <$> input_bns k;
     return_blobs := BnInOp2Blob <$> output_bns k;
     return_blob_names := output_bns k;
     aliases := [] |}.

Definition ForwardDataContent (k : XlaLaunchKernel)
    (BnInOp2Blob : string -> Blob) : M unit :=
  let f0 := initial_frame k BnInOp2Blob in
  do _ <- CHECK (has_xla_launch_conf k) ForwardNeedsLaunchConf;
  let attr_helper := launch_attr k in
  do f <- call_AliasMutableInputsAndOutputs attr_helper f0;
  let launch_ctx := new_launch_ctx k (op_name k) (device_type k) 1 in
  do compile_result <-
    BuildLocalExecutable k launch_ctx (entry_blobs f) (return_blobs f)
      (entry_blob_names f) (return_blob_names f) (aliases f) None;
  match compile_result with
  | None => fatal ExecutableBuiltFailed
  | Some compile_result =>
      let exe := executable compile_result in
      let allocation_indices := ResultAllocationIndices exe in
      do _ <- CHECK (length (return_blobs f) =? length allocation_indices)%nat
                AllocationIndicesMismatch;
      do _ <- PopulateResultBuffers (return_blobs f) allocation_indices;
      let block_host_until_done := blocking_policy (device_type k) in
      LaunchExecutable k launch_ctx exe (entry_blobs f)
        (xla_input_shapes compile_result) (return_blobs f)
        (xla_output_shape compile_result) block_host_until_done
  end.

(** ** Observations used in the statements *)

(** The calls logged between two worlds of one run. *)
Definition events_since (w w' : World) : list Event :=
  drop (length (trace w)) (trace w').

(** The launch context of an invocation (line 178) and the signature
    [BuildLocalExecutable] computes in it (line 28). *)
Definition launch_ctx_of (k : XlaLaunchKernel) : XlaLaunchContext :=
  new_launch_ctx k (op_name k) (device_type k) 1.

Definition signature_of (k : XlaLaunchKernel) (BnInOp2Blob : string -> Blob)
    : Signature :=
  ComputeSignature (builder_name (launch_ctx_of k))
    (device_ordinal (launch_ctx_of k)) (BnInOp2Blob <$> input_bns k).

(** The world [LaunchExecutable] leaves once the lambda of lines 97-111
    has run: the call to [RunAsync] logged, then the wait on the stream if
    blocking was asked for, and device memory as the run left it. *)
Definition launched_world (k : XlaLaunchKernel) (launch_ctx : XlaLaunchContext)
    (exe : LocalExecutable) (arguments : list (option ShapedBuffer))
    (block_host_until_done : bool) (w : World) : World :=
  {| compilation_cache_ := compilation_cache_ w;
     trace := trace w
              ++ [CallRunAsync arguments (run_options_of k launch_ctx)]
              ++ (if block_host_until_done
                  then [CallBlockHostUntilDone (stream launch_ctx)] else []);
     device_memory :=
       (RunAsync exe arguments (run_options_of k launch_ctx) (device_memory w)).2 |}.

(** The status of that run. *)
Definition run_status (k : XlaLaunchKernel) (launch_ctx : XlaLaunchContext)
    (exe : LocalExecutable) (arguments : list (option ShapedBuffer))
    (w : World) : StatusOr RunResult :=
  (RunAsync exe arguments (run_options_of k launch_ctx) (device_memory w)).1.

(** Slot [i] of the arguments holds the buffer lines 73-93 build for
    entry [i]: the host shape on both sides, the client's platform, the
    context's device ordinal, the entry's byte size, and as data pointer
    the entry's own, or the first return tensor's when the entry is a
    placeholder (null pointer, positive byte size). *)
Definition marshalled (launch_ctx : XlaLaunchContext) (entries : list Blob)
    (input_shapes : list Shape) (returns : list Blob) (i : nat)
    (buf : ShapedBuffer) : Prop :=
  exists shape entry,
    input_shapes !! i = Some shape /\
    entries !! i = Some entry /\
    IsTuple (HostShapeToDeviceShape (client launch_ctx) shape) = false /\
    on_host_shape buf = shape /\
    on_device_shape buf = shape /\
    buffer_platform buf = client_platform (client launch_ctx) /\
    buffer_device_ordinal buf = device_ordinal launch_ctx /\
    mem_size (root_buffer buf) = ByteSizeOfDataContentField entry /\
    (0 < ByteSizeOfDataContentField entry -> dptr entry = nullptr ->
     exists first, returns !! 0%nat = Some first /\
                   opaque (root_buffer buf) = dptr first) /\
    (~ (0 < ByteSizeOfDataContentField entry /\ dptr entry = nullptr) ->
     opaque (root_buffer buf) = dptr entry).

(** The result buffer of a return slot, when it is not null, is the
    caller's output buffer of that slot. *)
Definition buffer_reused (returns : list Blob) (run_result : RunResult)
    (slot : nat) : Prop :=
  forall output, returns !! slot = Some output ->
    opaque (result_buffer run_result [Z.of_nat slot]) <> nullptr ->
    opaque (result_buffer run_result [Z.of_nat slot]) = mut_dptr output.

(** The calls [BuildLocalExecutable] logs. *)
Definition build_events (k : XlaLaunchKernel) (f : LaunchFrame) (w : World)
    (sig : Signature) : list Event :=
  CallGetRecord sig ::
  match cache_get (the_cache w) sig with
  | Some _ => []
  | None =>
      [CallCompile (entry_blobs f) (return_blobs f) (entry_blob_names f)
         (return_blob_names f) (aliases f);
       CallRecord sig;
       CallGetRecord sig]
  end.

(** The alias entry line 144 builds, whatever the sizes: the output slot
    is the count of return tensors as [static_cast<int>] leaves it. *)
Definition cast_alias_entry (pre_existing : nat) (k i : nat) : InputOutputAlias :=
  {| output_index := [static_cast_int (Z.of_nat (pre_existing + k))];
     param_number := Z.of_nat i;
     param_index := [] |}.

(** The calls of the launch phase (lines 194-203). *)
Definition is_launch_event (ev : Event) : bool :=
  match ev with
  | CallPopulateResultBuffers _ _ | CallRunAsync _ _ | CallBlockHostUntilDone _ => true
  | _ => false
  end.


(** ** A concrete launch unit

    Three entries [a], [b], [c], of which only [b] is declared mutable and
    maps to [b_out]; one ordinary output [out]. Entry [c] is body-disabled:
    a null data pointer with a positive byte size. *)
Module Demo.

Definition blob_a : Blob := mkBlob [4] 2 1000 16.
Definition blob_b : Blob := mkBlob [4] 2 2000 16.
Definition blob_c : Blob := mkBlob [4] 2 nullptr 16.
Definition blob_out : Blob := mkBlob [4] 2 3000 16.

Definition attr : LaunchAttrHelper :=
  {| IsMutableArg := fun n => String.eqb n "b";
     OutputArg := fun n => (n ++ "_out")%string |}.

Definition BnInOp2Blob (bn : string) : Blob :=
  if String.eqb bn "a" then blob_a
  else if String.eqb bn "b" then blob_b
  else if String.eqb bn "c" then blob_c
  else blob_out.

Definition f32 (dims : list Z) : Shape := ArrayShape 2 dims.

Definition ctx : XlaLaunchContext :=
  {| device_ordinal := 0;
     builder_name := "add1";
     client := {| client_platform := 1; HostShapeToDeviceShape := fun s => s |};
     stream := 7;
     allocator := 8;
     host_device := 9 |}.

(** A run whose result reuses the output buffers: slot 0 is [out],
    slot 1 is [b]. *)
Definition reusing_result : RunResult :=
  {| result_host_shape := TupleShape [f32 [4]; f32 [4]];
     result_buffer := fun idx =>
       match idx with
       | [0] => mkMem 3000 16
       | [1] => mkMem 2000 16
       | _ => mkMem nullptr 0
       end |}.

(** A run that returns a buffer of its own at slot 1. *)
Definition stray_result : RunResult :=
  {| result_host_shape := TupleShape [f32 [4]; f32 [4]];
     result_buffer := fun idx =>
       match idx with
       | [0] => mkMem 3000 16
       | [1] => mkMem 9000 16
       | _ => mkMem nullptr 0
       end |}.

(** A run whose result is a single array. *)
Definition flat_result : RunResult :=
  {| result_host_shape := f32 [4];
     result_buffer := fun _ => mkMem nullptr 0 |}.

Definition exe_returning (r : RunResult) (allocation_indices : list Z)
    : LocalExecutable :=
  {| RunAsync := fun _ _ mem => (StatusOk r, <[3000 := 1]> mem);
     ResultAllocationIndices := allocation_indices |}.

Definition exe : LocalExecutable := exe_returning reusing_result [0; 1].

Definition input_shapes : list Shape := [f32 [4]; f32 [4]; f32 [4]].

Definition artifact_of (e : LocalExecutable) (shapes : list Shape)
    : CompilationResult :=
  {| executable := e;
     xla_input_shapes := shapes;
     xla_output_shape := TupleShape [f32 [4]; f32 [4]] |}.

Definition artifact : CompilationResult := artifact_of exe input_shapes.

Definition kernel_with (d : DeviceType) (r : CompilationResult)
    : XlaLaunchKernel :=
  {| device_type := d;
     op_name := "add1";
     has_xla_launch_conf := true;
     launch_attr := attr;
     input_bns := ["a"; "b"; "c"];
     output_bns := ["out"];
     entry_blob_name := fun bn => bn;
     new_launch_ctx := fun _ _ _ => ctx;
     Compile := fun _ _ _ _ _ _ => r;
     GetXLARandomSeed := 42 |}.

Definition kernel (d : DeviceType) : XlaLaunchKernel := kernel_with d artifact.

Definition entries : list Blob := [blob_a; blob_b; blob_c].
Definition returns : list Blob := [blob_out; blob_b].

(** The buffers of the three entries; the one of [c] borrows the
    pointer of [out], the first return tensor. *)
Definition buffer_at (p : ptr) : ShapedBuffer :=
  {| on_host_shape := f32 [4];
     on_device_shape := f32 [4];
     buffer_platform := 1;
     buffer_device_ordinal := 0;
     root_buffer := mkMem p 16 |}.

Definition arguments : list (option ShapedBuffer) :=
  [Some (buffer_at 1000); Some (buffer_at 2000); Some (buffer_at 3000)].

Definition options : ExecutableRunOptions :=
  {| run_stream := 7;
     run_allocator := 8;
     run_intra_op_thread_pool := 9;
     run_rng_seed := 42 |}.

(** Input shapes whose second one is a tuple. *)
Definition tuple_shapes : list Shape :=
  [f32 [4]; TupleShape [f32 [4]]; f32 [4]].

(** The frame alias resolution leaves in an invocation of [kernel]. *)
Definition resolved_frame : LaunchFrame :=
  {| entry_blobs := entries;
     entry_blob_names := ["a"; "b"; "c"];
     return_blobs := returns;
     return_blob_names := ["out"; "b_out"];
     aliases := [{| output_index := [1]; param_number := 1; param_index := [] |}] |}.

(** An artifact with one allocation index for two return tensors. *)
Definition short_artifact : CompilationResult :=
  artifact_of (exe_returning reusing_result [0]) input_shapes.

(** The vectors before alias resolution, with two ordinary outputs. *)
Definition frame : LaunchFrame :=
  {| entry_blobs := entries;
     entry_blob_names := ["a"; "b"; "c"];
     return_blobs := [blob_out; blob_out];
     return_blob_names := ["out0"; "out1"];
     aliases := [] |}.

(** A kernel that has not run yet, and one whose cache already holds the
    artifact of the signature. *)
Definition fresh_world : World :=
  {| compilation_cache_ := None; trace := []; device_memory := ∅ |}.

Definition warm_world : World :=
  {| compilation_cache_ := Some {[ signature_of (kernel kCPU) BnInOp2Blob := artifact ]};
     trace := [];
     device_memory := ∅ |}.

End Demo.

(** ** Further concrete cases *)
Module Cases.

(** The launch unit of [Demo] without a launch configuration. *)
Definition kernel_without_conf : XlaLaunchKernel :=
  {| device_type := kCPU;
     op_name := "add1";
     has_xla_launch_conf := false;
     launch_attr := Demo.attr;
     input_bns := ["a"; "b"; "c"];
     output_bns := ["out"];
     entry_blob_name := fun bn => bn;
     new_launch_ctx := fun _ _ _ => Demo.ctx;
     Compile := fun _ _ _ _ _ _ => Demo.artifact;
     GetXLARandomSeed := 42 |}.

(** Blobs of the same shapes and types as those of [Demo], at other
    addresses. *)
Definition BnInOp2Blob_elsewhere (bn : string) : Blob :=
  if String.eqb bn "a" then mkBlob [4] 2 5000 16
  else if String.eqb bn "b" then mkBlob [4] 2 6000 16
  else if String.eqb bn "c" then mkBlob [4] 2 7000 16
  else mkBlob [4] 2 8000 16.

(** An executable whose run reports an error. *)
Definition failing_exe : LocalExecutable :=
  {| RunAsync := fun _ _ mem => (StatusError, mem);
     ResultAllocationIndices := [0; 1] |}.

(** A declaration with no mutable argument. *)
Definition nothing_mutable : LaunchAttrHelper :=
  {| IsMutableArg := fun _ => false;
     OutputArg := fun n => n |}.




End Cases.

(** * MicroKernel: construction (micro_kernel.h)

    The constructor of [MicroKernel<device_type, T>] (lines 12-27) and
    its accessor [mut_mk_graph] (lines 37-39). [BlobSymbol],
    [MicroKernelGraph] and [Connect] are declared outside these sources:
    a symbol is what its two accessors return, and the calls made on the
    graph are logged in program order. *)
Module MicroKernel.

(** [BlobSymbol]: [mut_mk_graph()] and [mut_producer_mk_node()], the
    latter null when no node produces the symbol. *)
Record BlobSymbol : Type := mkBlobSymbol {
  mut_mk_graph : ptr;
  mut_producer_mk_node : ptr
}.

(** [graph->AddAllocatedNode(node)], and
    [Connect(src, graph->NewEdge(), dst)]. *)
Inductive GraphCall : Type :=
| AddAllocatedNode (graph node : ptr)
| ConnectNewEdge (graph src dst : ptr).

Inductive Failure : Type :=
| InputsEmpty     (* line 17: CHECK(!input_blob_symbols_.empty()) *)
| GraphsDiffer    (* line 21: CHECK(last_mk_graph == nullptr || last_mk_graph == input_mk_graph) *)
| NullGraph.      (* line 23: a member called through a null graph pointer *)

Inductive built (A : Type) : Type :=
| Built (a : A)
| Aborted (e : Failure).
Arguments Built {A} a.
Arguments Aborted {A} e.

(** The members the constructor initialises (lines 15-16). *)
Record t : Type := mkMicroKernel {
  input_blob_symbols_ : list BlobSymbol;
  out_blob_name_ : string;
  out_diff_blob_name_ : string
}.

(** Body of the loop at lines 19-26, on [last_mk_graph] and the log. *)
Definition ctor_step (this : ptr) (input_blob_symbol : BlobSymbol)
    (st : ptr * list GraphCall) : built (ptr * list GraphCall) :=
  let '(last_mk_graph, calls) := st in
  let input_mk_graph := mut_mk_graph input_blob_symbol in
  if negb ((last_mk_graph =? nullptr) || (last_mk_graph =? input_mk_graph))
  then Aborted GraphsDiffer
  else
    let last_mk_graph := input_mk_graph in
    if input_mk_graph =? nullptr then Aborted NullGraph
    else
      let calls := calls ++ [AddAllocatedNode input_mk_graph this] in
      let input_node := mut_producer_mk_node input_blob_symbol in
      Built (last_mk_graph,
             if negb (input_node =? nullptr)
             then calls ++ [ConnectNewEdge input_mk_graph input_node this]
             else calls).

Fixpoint ctor_loop (this : ptr) (symbols : list BlobSymbol)
    (st : ptr * list GraphCall) : built (ptr * list GraphCall) :=
  match symbols with
  | [] => Built st
  | s :: rest =>
      match ctor_step this s st with
      | Built st' => ctor_loop this rest st'
      | Aborted e => Aborted e
      end
  end.

(** The constructor: the kernel and the calls it made on the graph. *)
Definition construct (this : ptr) (input_blob_symbols : list BlobSymbol)
    (out_blob_name out_diff_blob_name : string)
    : built (t * list GraphCall) :=
  match input_blob_symbols with
  | [] => Aborted InputsEmpty
  | _ :: _ =>
      match ctor_loop this input_blob_symbols (nullptr, []) with
      | Built (_, calls) =>
          Built ({| input_blob_symbols_ := input_blob_symbols;
                    out_blob_name_ := out_blob_name;
                    out_diff_blob_name_ := out_diff_blob_name |}, calls)
      | Aborted e => Aborted e
      end
  end.

(** [mut_mk_graph()] of the kernel: the graph of [front()]; [None] on
    an empty vector, where [front()] is undefined. *)
Definition kernel_mk_graph (k : t) : option ptr :=
  mut_mk_graph <$> head (input_blob_symbols_ k).

(** The calls one input symbol gives rise to. *)
Definition calls_for (this : ptr) (s : BlobSymbol) : list GraphCall :=
  AddAllocatedNode (mut_mk_graph s) this
  :: (if mut_producer_mk_node s =? nullptr then []
      else [ConnectNewEdge (mut_mk_graph s) (mut_producer_mk_node s) this]).

(** Two symbols of one graph, the second produced by node 70; a symbol
    of another graph. *)
Definition on_graph_5 : BlobSymbol := mkBlobSymbol 5 nullptr.
Definition produced_on_graph_5 : BlobSymbol := mkBlobSymbol 5 70.
Definition on_graph_6 : BlobSymbol := mkBlobSymbol 6 nullptr.

End MicroKernel.

(** * Copy task nodes: operator configurations (copy_task_node.cpp)

    [CopyHdTaskNode::NewCopyOpConf] (lines 30-35) and
    [CopyCommNetTaskNode::NewCopyOpConf] (lines 42-47). [OperatorConf] is
    a protocol-buffer message declared outside these sources: its name
    and which member of its [op_type] oneof is set. The string
    [NewUniqueId()] returns is an argument. *)
Module CopyTask.

Inductive OpType : Type :=
| OpTypeNotSet
| copy_hd_conf (type : Z)
| copy_comm_net_conf.

Record OperatorConf : Type := mkOperatorConf {
  name : string;
  op_type : OpType
}.

Definition CopyHd_NewCopyOpConf (copy_type_ : Z) (unique_id : string)
    : OperatorConf :=
  {| name := "copy_hd_" ++ unique_id;
     op_type := copy_hd_conf copy_type_ |}.

Definition CopyCommNet_NewCopyOpConf (unique_id : string) : OperatorConf :=
  {| name := "copy_comm_net_" ++ unique_id;
     op_type := copy_comm_net_conf |}.

End CopyTask.

(** * Properties *)

(** ** Loops and casts *)


(** An invariant kept by every iteration is kept by the loop. *)
Lemma for_each_invariant {S : Type} (R : S -> S -> Prop) (body : nat -> S -> outcome S) :
  (forall s, R s s) ->
  (forall s1 s2 s3, R s1 s2 -> R s2 s3 -> R s1 s3) ->
  (forall i s s', body i s = Ok s' -> R s s') ->
  forall idxs s s', for_each idxs body s = Ok s' -> R s s'.
Proof.
  intros Hrefl Htrans Hstep idxs.
  induction idxs as [|i rest IH]; intros s s' Hrun; simpl in Hrun.
  - inversion Hrun; subst. apply Hrefl.
  - destruct (body i s) as [s1|e] eqn:Hb; [|discriminate].
    eapply Htrans; [eapply Hstep; eassumption | eapply IH; eassumption].
Qed.

Lemma omap_total_lookup {A B} (g : A -> option B) (l : list A) :
  (forall x, x ∈ l -> is_Some (g x)) ->
  length (omap g l) = length l /\
  forall k x, l !! k = Some x -> omap g l !! k = g x.
Proof.
  induction l as [|a l IH]; intros Hall; [by split|].
  destruct (Hall a) as [b Hb]; [left|].
  destruct IH as [IHlen IHlook]; [intros x Hx; apply Hall; by right|].
  cbn [omap list_omap]. rewrite Hb.
  split; [simpl; by rewrite IHlen|].
  intros [|k] x Hk; simpl in *; [by inversion Hk; subst|by apply IHlook].
Qed.


Lemma elem_of_mutable_slots attr (names : list string) (i : nat) :
  i ∈ mutable_slots attr names <->
  exists n, names !! i = Some n /\ IsMutableArg attr n = true.
Proof.
  unfold mutable_slots. rewrite list_elem_of_In, filter_In, in_seq.
  unfold is_mutable_slot. split.
  - intros [_ Hm]. destruct (names !! i) as [n|]; [eauto|done].
  - intros (n & Hn & Hm). rewrite Hn. split; [|done].
    apply lookup_lt_Some in Hn. lia.
Qed.

(** ** Alias resolution *)

Lemma alias_step_extends attr i f f' :
  alias_step attr i f = Ok f' -> frame_extends f f'.
Proof.
  unfold alias_step, frame_extends. intros H.
  destruct (entry_blob_names f !! i) as [name|]; [|done].
  destruct (entry_blobs f !! i) as [blob|]; [|done].
  destruct (IsMutableArg attr name); inversion H; subst; simpl;
    repeat split; try done; by apply prefix_app_r.
Qed.

Lemma frame_extends_refl f : frame_extends f f.
Proof. by unfold frame_extends. Qed.

Lemma frame_extends_trans f1 f2 f3 :
  frame_extends f1 f2 -> frame_extends f2 f3 -> frame_extends f1 f3.
Proof.
  unfold frame_extends.
  intros (E1 & N1 & R1 & M1 & A1) (E2 & N2 & R2 & M2 & A2).
  repeat split; try congruence; by etrans.
Qed.

Lemma alias_loop_extends attr idxs f f' :
  for_each idxs (alias_step attr) f = Ok f' -> frame_extends f f'.
Proof.
  apply (for_each_invariant frame_extends).
  - apply frame_extends_refl.
  - apply frame_extends_trans.
  - apply alias_step_extends.
Qed.

Lemma alias_loop_total attr idxs :
  forall f,
    (forall i, i ∈ idxs -> (i < length (entry_blobs f))%nat) ->
    length (entry_blobs f) = length (entry_blob_names f) ->
    exists f', for_each idxs (alias_step attr) f = Ok f'.
Proof.
  induction idxs as [|i rest IH]; intros f Hin Hlen; simpl; [eauto|].
  assert (Hi : (i < length (entry_blobs f))%nat) by (apply Hin; left).
  destruct (lookup_lt_is_Some_2 (entry_blobs f) i Hi) as [blob Hblob].
  assert (Hi' : (i < length (entry_blob_names f))%nat) by lia.
  destruct (lookup_lt_is_Some_2 (entry_blob_names f) i Hi') as [name Hname].
  destruct (alias_step attr i f) as [f1|e] eqn:Hstep.
  - destruct (alias_step_extends _ _ _ _ Hstep) as (E & N & _).
    apply IH; [|congruence].
    intros j Hj. rewrite E. apply Hin. by right.
  - unfold alias_step in Hstep. rewrite Hname, Hblob in Hstep.
    by destruct (IsMutableArg attr name).
Qed.

Lemma alias_total attr f :
  length (entry_blobs f) = length (entry_blob_names f) ->
  exists f', AliasMutableInputsAndOutputs attr f = Ok f'.
Proof.
  intros Hlen. unfold AliasMutableInputsAndOutputs, for_range.
  rewrite (proj2 (Nat.eqb_eq _ _) Hlen). simpl.
  apply alias_loop_total; [|done].
  intros i Hi. apply list_elem_of_In, in_seq in Hi. lia.
Qed.

Lemma alias_extends attr f f' :
  AliasMutableInputsAndOutputs attr f = Ok f' -> frame_extends f f'.
Proof.
  unfold AliasMutableInputsAndOutputs, for_range.
  destruct (negb _); [done|]. apply alias_loop_extends.
Qed.

Lemma prefix_keeps_elements {A} (l l' : list A) :
  l `prefix_of` l' -> keeps_elements l l'.
Proof. intros [k ->] i x Hi. by apply lookup_app_l_Some. Qed.

Lemma alias_loop_closed_form attr idxs :
  forall f,
    (forall i, i ∈ idxs -> (i < length (entry_blobs f))%nat) ->
    length (entry_blobs f) = length (entry_blob_names f) ->
    for_each idxs (alias_step attr) f =
    Ok (extend_frame f
          (omap (fun i => entry_blobs f !! i)
             (List.filter (is_mutable_slot attr (entry_blob_names f)) idxs),
           omap (fun i => OutputArg attr <$> entry_blob_names f !! i)
             (List.filter (is_mutable_slot attr (entry_blob_names f)) idxs),
           imap (cast_alias_entry (length (return_blobs f)))
             (List.filter (is_mutable_slot attr (entry_blob_names f)) idxs))).
Proof.
  induction idxs as [|i rest IH]; intros f Hin Hlen.
  - simpl. destruct f; unfold extend_frame; simpl. by rewrite !app_nil_r.
  - assert (Hi : (i < length (entry_blobs f))%nat) by (apply Hin; left).
    destruct (lookup_lt_is_Some_2 (entry_blobs f) i Hi) as [blob Hblob].
    assert (Hi' : (i < length (entry_blob_names f))%nat) by lia.
    destruct (lookup_lt_is_Some_2 (entry_blob_names f) i Hi') as [name Hname].
    assert (Hfilter :
              List.filter (is_mutable_slot attr (entry_blob_names f)) (i :: rest) =
              if IsMutableArg attr name
              then i :: List.filter (is_mutable_slot attr (entry_blob_names f)) rest
              else List.filter (is_mutable_slot attr (entry_blob_names f)) rest).
    { simpl. unfold is_mutable_slot at 1. by rewrite Hname. }
    rewrite Hfilter. clear Hfilter.
    cbn [for_each]. unfold alias_step at 1. rewrite Hname, Hblob.
    destruct (IsMutableArg attr name) eqn:Hmut.
    + rewrite IH; cbn [entry_blobs entry_blob_names return_blobs];
        [|intros j Hj; apply Hin; by right|done].
      f_equal. unfold extend_frame.
      cbn [entry_blobs entry_blob_names return_blobs return_blob_names aliases
           fst snd omap list_omap imap].
      rewrite Hblob, Hname. cbn [fmap option_fmap option_map].
      rewrite <- !app_assoc. cbn [app].
      f_equal. f_equal. f_equal.
      * unfold cast_alias_entry. do 3 f_equal. lia.
      * apply imap_ext. intros k x _. unfold cast_alias_entry, compose.
        rewrite length_app; simpl. do 4 f_equal. lia.
    + apply IH; [|done]. intros j Hj. apply Hin. by right.
Qed.

Lemma alias_closed_form attr f :
  length (entry_blobs f) = length (entry_blob_names f) ->
  let x := resolve attr (entry_blob_names f) (entry_blobs f)
             (length (return_blobs f)) in
  AliasMutableInputsAndOutputs attr f =
  Ok (extend_frame f
        (x.1.1, x.1.2,
         imap (cast_alias_entry (length (return_blobs f)))
           (mutable_slots attr (entry_blob_names f)))).
Proof.
  intros Hlen x. subst x. unfold AliasMutableInputsAndOutputs, for_range.
  rewrite (proj2 (Nat.eqb_eq _ _) Hlen). simpl.
  rewrite alias_loop_closed_form; [|intros i Hi|done].
  - unfold mutable_slots. by rewrite <- Hlen.
  - apply list_elem_of_In, in_seq in Hi. lia.
Qed.






(** C9. Alias resolution reads its two input vectors and only appends to
    its three output vectors: it returns whenever there are as many names
    as entries (and aborts on the size check otherwise), and the frame it
    returns has the same entry tensors and entry names, and has every
    return tensor, return name and alias entry that was present before
    the call at the same index, unmodified, new elements coming after
    them. *)
Theorem alias_resolution_append_only attr f :
  (length (entry_blobs f) <> length (entry_blob_names f) ->
   AliasMutableInputsAndOutputs attr f = Fatal AliasNamesSizeMismatch) /\
  (length (entry_blobs f) = length (entry_blob_names f) ->
   exists f', AliasMutableInputsAndOutputs attr f = Ok f') /\
  (forall f', AliasMutableInputsAndOutputs attr f = Ok f' ->
     frame_extends f f' /\
     keeps_elements (return_blobs f) (return_blobs f') /\
     keeps_elements (return_blob_names f) (return_blob_names f') /\
     keeps_elements (aliases f) (aliases f')).
Proof.
  split; [|split].
  - intros Hne. unfold AliasMutableInputsAndOutputs.
    by rewrite (proj2 (Nat.eqb_neq _ _) Hne).
  - apply alias_total.
  - intros f' Hrun. pose proof (alias_extends _ _ _ Hrun) as Hext.
    split; [done|]. destruct Hext as (_ & _ & R & N & A).
    repeat split; by apply prefix_keeps_elements.
Qed.

Lemma alias_resolution_append_only_example :
  let f' := extend_frame Demo.frame
              ([Demo.blob_b], ["b_out"%string],
               [{| output_index := [2]; param_number := 1; param_index := [] |}]) in
  AliasMutableInputsAndOutputs Demo.attr Demo.frame = Ok f' /\
  frame_extends Demo.frame f' /\
  keeps_elements (return_blobs Demo.frame) (return_blobs f') /\
  keeps_elements (return_blob_names Demo.frame) (return_blob_names f') /\
  keeps_elements (aliases Demo.frame) (aliases f').
Proof.
  intros f'. split; [reflexivity|].
  exact (proj2 (proj2 (alias_resolution_append_only Demo.attr Demo.frame))
           f' eq_refl).
Defined.

(** ** BuildLocalExecutable *)

Lemma events_since_app w w' evs :
  trace w' = trace w ++ evs -> events_since w w' = evs.
Proof. unfold events_since. intros ->. by rewrite drop_app_length. Qed.

Lemma cache_get_record (c : XlaCompilationCache) sig r :
  cache_get (cache_record c sig r) sig = Some r.
Proof. unfold cache_get, cache_record. apply lookup_insert_eq. Qed.

(** What [BuildLocalExecutable] does, by cases on the cache and on the
    launch configuration. *)
Lemma build_cases k ctx entries returns entry_names return_names alias_entries cr w :
  let sig := ComputeSignature (builder_name ctx) (device_ordinal ctx) entries in
  let result := Compile k ctx entries returns entry_names return_names alias_entries in
  let run := BuildLocalExecutable k ctx entries returns entry_names return_names
               alias_entries cr w in
  match cache_get (the_cache w) sig with
  | Some hit =>
      exists w', run = (Ok (Some hit), w') /\
        the_cache w' = the_cache w /\
        trace w' = trace w ++ [CallGetRecord sig] /\
        device_memory w' = device_memory w
  | None =>
      if has_xla_launch_conf k then
        exists w', run = (Ok (Some result), w') /\
          the_cache w' = cache_record (the_cache w) sig result /\
          trace w' = trace w ++ [CallGetRecord sig;
                                 CallCompile entries returns entry_names return_names
                                   alias_entries;
                                 CallRecord sig; CallGetRecord sig] /\
          device_memory w' = device_memory w
      else
        exists w', run = (Fatal BuildNeedsLaunchConf, w') /\
          the_cache w' = the_cache w /\
          trace w' = trace w ++ [CallGetRecord sig] /\
          device_memory w' = device_memory w
  end.
Proof.
  intros sig result run. subst run.
  unfold BuildLocalExecutable, bind, ensure_cache, GetRecord, Record_,
    call_Compile, CHECK, fatal, ret, bind, log, logged, force_compile.
  fold sig. fold result.
  destruct w as [[c|] t m]; cbn [the_cache compilation_cache_ trace device_memory
                                  default negb fst snd].
  all: destruct (cache_get _ sig) as [hit|] eqn:Hget;
    [|destruct (has_xla_launch_conf k)];
    cbn [the_cache compilation_cache_ trace device_memory default from_option id];
    rewrite ?cache_get_record;
    (eexists; split; [reflexivity|]);
    cbn [the_cache compilation_cache_ trace device_memory default from_option id];
    rewrite <- ?app_assoc; repeat split; try done.
Qed.

(** C1. On a cache miss [BuildLocalExecutable] looks the signature up,
    compiles, records the artifact under the signature and looks it up
    again, in this order, and hands back the artifact the cache now holds
    for the signature. Whenever it returns, on a hit as on a miss, what it
    hands back is not null and is the cache's entry for the signature. *)
Theorem build_hands_back_the_cache_entry k ctx entries returns entry_names
    return_names alias_entries cr w :
  let sig := ComputeSignature (builder_name ctx) (device_ordinal ctx) entries in
  let result := Compile k ctx entries returns entry_names return_names alias_entries in
  let run := BuildLocalExecutable k ctx entries returns entry_names return_names
               alias_entries cr w in
  (cache_get (the_cache w) sig = None -> has_xla_launch_conf k = true ->
   exists w',
     run = (Ok (Some result), w') /\
     events_since w w' =
       [CallGetRecord sig;
        CallCompile entries returns entry_names return_names alias_entries;
        CallRecord sig;
        CallGetRecord sig] /\
     the_cache w' = cache_record (the_cache w) sig result /\
     cache_get (the_cache w') sig = Some result) /\
  (forall r w', run = (Ok r, w') ->
     is_Some r /\ r = cache_get (the_cache w') sig).
Proof.
  intros sig result run.
  pose proof (build_cases k ctx entries returns entry_names return_names
                alias_entries cr w) as Hcases.
  cbv zeta in Hcases. fold sig result run in Hcases.
  split.
  - intros Hmiss Hconf. rewrite Hmiss, Hconf in Hcases.
    destruct Hcases as (w' & Hrun & Hc & Ht & _).
    exists w'. split; [done|]. split; [by apply events_since_app|].
    split; [done|]. rewrite Hc. apply cache_get_record.
  - intros r w' Hrun.
    destruct (cache_get (the_cache w) sig) as [hit|] eqn:Hget.
    + destruct Hcases as (w1 & Hrun1 & Hc & _).
      rewrite Hrun in Hrun1. inversion Hrun1; subst.
      split; [by eexists|]. by rewrite Hc.
    + destruct (has_xla_launch_conf k).
      * destruct Hcases as (w1 & Hrun1 & Hc & _).
        rewrite Hrun in Hrun1. inversion Hrun1; subst.
        split; [by eexists|]. rewrite Hc. symmetry. apply cache_get_record.
      * destruct Hcases as (w1 & Hrun1 & _). congruence.
Qed.

Lemma build_hands_back_the_cache_entry_example :
  let sig := signature_of (Demo.kernel kCPU) Demo.BnInOp2Blob in
  cache_get (the_cache Demo.fresh_world) sig = None /\
  has_xla_launch_conf (Demo.kernel kCPU) = true /\
  exists w',
    BuildLocalExecutable (Demo.kernel kCPU) Demo.ctx Demo.entries Demo.returns
      ["a"; "b"; "c"]%string ["out"; "b_out"]%string
      [{| output_index := [1]; param_number := 1; param_index := [] |}]
      None Demo.fresh_world = (Ok (Some Demo.artifact), w') /\
    events_since Demo.fresh_world w' =
      [CallGetRecord sig;
       CallCompile Demo.entries Demo.returns ["a"; "b"; "c"]%string
         ["out"; "b_out"]%string
         [{| output_index := [1]; param_number := 1; param_index := [] |}];
       CallRecord sig;
       CallGetRecord sig] /\
    the_cache w' = cache_record (the_cache Demo.fresh_world) sig Demo.artifact /\
    cache_get (the_cache w') sig = Some Demo.artifact.
Proof.
  intros sig. split; [reflexivity|]. split; [reflexivity|].
  exact (proj1 (build_hands_back_the_cache_entry (Demo.kernel kCPU) Demo.ctx
                  Demo.entries Demo.returns ["a"; "b"; "c"]%string
                  ["out"; "b_out"]%string
                  [{| output_index := [1]; param_number := 1; param_index := [] |}]
                  None Demo.fresh_world) eq_refl eq_refl).
Defined.

(** ** LaunchExecutable *)

(** What [LaunchExecutable] does, by cases on its checks. *)
Lemma launch_cases k ctx exe entries shapes returns out_shape block w :
  let run := LaunchExecutable k ctx exe entries shapes returns out_shape block w in
  if negb (length entries =? length shapes)%nat then
    run = (Fatal InputShapesSizeMismatch, w)
  else if negb (0 <? length returns)%nat then
    run = (Fatal NeedOneRealOutput, w)
  else
    match marshal_arguments ctx entries shapes returns with
    | Fatal e => run = (Fatal e, w)
    | Ok arguments =>
        run =
        (match run_status k ctx exe arguments w with
         | StatusError => Fatal RunFailed
         | StatusOk run_result =>
             if IsTuple (result_host_shape run_result)
             then translate_results returns run_result
             else Fatal ResultShapeNotTuple
         end,
         launched_world k ctx exe arguments block w)
    end.
Proof.
  intros run. subst run. unfold LaunchExecutable, bind, CHECK, ret, fatal, lift.
  destruct (length entries =? length shapes)%nat; [|done].
  destruct (0 <? length returns)%nat; [|done]. simpl.
  destruct (marshal_arguments ctx entries shapes returns) as [arguments|e]; [|done].
  unfold run_lambda, call_RunAsync, BlockHostUntilDone, bind, log, logged, ret,
    run_status, launched_world, OF_CHECK_AND_ASSIGN, fatal, ret.
  cbn [trace device_memory compilation_cache_].
  destruct (RunAsync exe arguments (run_options_of k ctx) (device_memory w))
    as [status mem].
  cbn [fst snd].
  destruct block; cbn [trace device_memory compilation_cache_];
    rewrite <- ?app_assoc, ?app_nil_r;
    (destruct status as [run_result|]; [|done]);
    by destruct (IsTuple (result_host_shape run_result)).
Qed.

(** *** Marshalling the arguments *)

Lemma marshal_step_ok ctx entries shapes returns i arguments arguments' :
  marshal_step ctx entries shapes returns i arguments = Ok arguments' ->
  exists buf, arguments' = <[i := Some buf]> arguments /\
              marshalled ctx entries shapes returns i buf.
Proof.
  unfold marshal_step, obind, at_index. intros H.
  destruct (shapes !! i) as [shape|] eqn:Hshape; [|done].
  destruct (IsTuple (HostShapeToDeviceShape (client ctx) shape)) eqn:Htuple; [done|].
  destruct (entries !! i) as [entry|] eqn:Hentry; [|done].
  destruct ((0 <? ByteSizeOfDataContentField entry) && (dptr entry =? nullptr))
    eqn:Hplace.
  - apply andb_true_iff in Hplace as [Hsize Hnull].
    apply Z.ltb_lt in Hsize. apply Z.eqb_eq in Hnull.
    destruct (returns !! 0%nat) as [first|] eqn:Hfirst; [|done].
    inversion H; subst. eexists. split; [reflexivity|].
    exists shape, entry. simpl. repeat split; try done.
    + intros _ _. by exists first.
    + intros Hnot. exfalso. apply Hnot. by split.
  - inversion H; subst. eexists. split; [reflexivity|].
    exists shape, entry. simpl. repeat split; try done.
    intros Hsize Hnull. apply andb_false_iff in Hplace as [Hp|Hp].
    + apply Z.ltb_ge in Hp. lia.
    + apply Z.eqb_neq in Hp. done.
Qed.

Lemma marshal_step_fatal ctx entries shapes returns i arguments e :
  marshal_step ctx entries shapes returns i arguments = Fatal e ->
  (e = TupleInputNotAllowed /\
   exists shape, shapes !! i = Some shape /\
     IsTuple (HostShapeToDeviceShape (client ctx) shape) = true) \/
  (e = VectorIndexOutOfRange /\
   (shapes !! i = None \/ entries !! i = None \/ returns !! 0%nat = None)).
Proof.
  unfold marshal_step, obind, at_index. intros H.
  destruct (shapes !! i) as [shape|] eqn:Hshape; [|inversion H; auto].
  destruct (IsTuple (HostShapeToDeviceShape (client ctx) shape)) eqn:Htuple;
    [inversion H; left; eauto|].
  destruct (entries !! i) as [entry|] eqn:Hentry; [|inversion H; auto].
  destruct ((0 <? ByteSizeOfDataContentField entry) && (dptr entry =? nullptr));
    [|done].
  destruct (returns !! 0%nat) as [first|] eqn:Hfirst; [done|].
  inversion H; auto.
Qed.

Lemma marshal_loop_ok ctx entries shapes returns idxs :
  forall arguments arguments',
    for_each idxs (marshal_step ctx entries shapes returns) arguments = Ok arguments' ->
    length arguments' = length arguments /\
    forall i, (i < length arguments)%nat ->
      ((i ∉ idxs) /\ arguments' !! i = arguments !! i) \/
      ((i ∈ idxs) /\ exists buf, arguments' !! i = Some (Some buf) /\
                               marshalled ctx entries shapes returns i buf).
Proof.
  induction idxs as [|j rest IH]; intros arguments arguments' Hrun; simpl in Hrun.
  - inversion Hrun; subst. split; [done|]. intros i _. left.
    split; [apply not_elem_of_nil|done].
  - destruct (marshal_step ctx entries shapes returns j arguments)
      as [arguments1|e] eqn:Hstep; [|done].
    apply marshal_step_ok in Hstep as (buf & -> & Hbuf).
    destruct (IH _ _ Hrun) as [Hlen Hslots].
    rewrite length_insert in Hlen, Hslots. split; [done|].
    intros i Hi. destruct (Hslots i Hi) as [[Hnot Hsame]|[Hin Hbuf']].
    + destruct (decide (i = j)) as [->|Hne].
      * right. split; [left|]. exists buf.
        rewrite Hsame, list_lookup_insert_eq by done. done.
      * left. split; [|by rewrite Hsame, list_lookup_insert_ne].
        rewrite elem_of_cons. tauto.
    + right. split; [by right|done].
Qed.

Lemma marshal_loop_fatal ctx entries shapes returns idxs :
  forall arguments e,
    for_each idxs (marshal_step ctx entries shapes returns) arguments = Fatal e ->
    exists i, i ∈ idxs /\
      ((e = TupleInputNotAllowed /\
        exists shape, shapes !! i = Some shape /\
          IsTuple (HostShapeToDeviceShape (client ctx) shape) = true) \/
       (e = VectorIndexOutOfRange /\
        (shapes !! i = None \/ entries !! i = None \/ returns !! 0%nat = None))).
Proof.
  induction idxs as [|j rest IH]; intros arguments e Hrun; simpl in Hrun; [done|].
  destruct (marshal_step ctx entries shapes returns j arguments)
    as [arguments1|e1] eqn:Hstep.
  - destruct (IH _ _ Hrun) as (i & Hi & Hcase). exists i. split; [by right|done].
  - inversion Hrun; subst. exists j. split; [left|].
    by eapply marshal_step_fatal.
Qed.

(** The arguments of a run: one buffer per entry, each as lines 73-93
    build it. *)
Lemma marshal_arguments_ok ctx entries shapes returns arguments :
  marshal_arguments ctx entries shapes returns = Ok arguments ->
  length arguments = length shapes /\
  forall i, (i < length shapes)%nat ->
    exists buf, arguments !! i = Some (Some buf) /\
                marshalled ctx entries shapes returns i buf.
Proof.
  unfold marshal_arguments, for_range. intros Hrun.
  apply marshal_loop_ok in Hrun as [Hlen Hslots].
  rewrite length_replicate in Hlen, Hslots. split; [done|].
  intros i Hi. destruct (Hslots i Hi) as [[Hnot _]|[_ Hbuf]]; [|done].
  exfalso. apply Hnot. apply list_elem_of_In, in_seq. lia.
Qed.

(** With as many entries as shapes and a first return tensor, the only
    check marshalling can fail is the one on tuple shapes. *)
Lemma marshal_arguments_fatal ctx entries shapes returns e :
  length entries = length shapes -> returns <> [] ->
  marshal_arguments ctx entries shapes returns = Fatal e ->
  e = TupleInputNotAllowed /\
  exists i shape, shapes !! i = Some shape /\
    IsTuple (HostShapeToDeviceShape (client ctx) shape) = true.
Proof.
  unfold marshal_arguments, for_range. intros Hlen Hret Hrun.
  apply marshal_loop_fatal in Hrun as (i & Hi & Hcase).
  apply list_elem_of_In, in_seq in Hi.
  destruct Hcase as [[-> (shape & Hs & Ht)]|[_ Hout]]; [eauto|].
  exfalso. destruct Hout as [Hn|[Hn|Hn]].
  - apply lookup_ge_None in Hn. lia.
  - apply lookup_ge_None in Hn. lia.
  - destruct returns; [done|]. discriminate.
Qed.

(** *** Translating the result *)

Lemma translate_step_cases returns run_result i u output :
  returns !! i = Some output ->
  translate_step returns run_result i u =
  if opaque (result_buffer run_result [Z.of_nat i]) =? nullptr then Ok tt
  else if opaque (result_buffer run_result [Z.of_nat i]) =? mut_dptr output
       then Ok tt else Fatal ResultBufferMismatch.
Proof.
  intros Hout. unfold translate_step, obind, at_index. rewrite Hout.
  by destruct (opaque (result_buffer run_result [Z.of_nat i]) =? nullptr).
Qed.

Lemma translate_step_reused returns run_result i u :
  (i < length returns)%nat ->
  (translate_step returns run_result i u = Ok tt <->
   buffer_reused returns run_result i) /\
  (translate_step returns run_result i u = Ok tt \/
   translate_step returns run_result i u = Fatal ResultBufferMismatch).
Proof.
  intros Hi. destruct (lookup_lt_is_Some_2 returns i Hi) as [output Hout].
  rewrite (translate_step_cases _ _ _ _ _ Hout). unfold buffer_reused.
  destruct (Z.eqb_spec (opaque (result_buffer run_result [Z.of_nat i])) nullptr)
    as [Hnull|Hnull].
  - split; [|by left]. split; [|done]. intros _ o _ Hne. done.
  - destruct (Z.eqb_spec (opaque (result_buffer run_result [Z.of_nat i]))
                (mut_dptr output)) as [Heq|Hne].
    + split; [|by left]. split; [|done]. intros _ o Ho _. congruence.
    + split; [|by right]. split; [done|]. intros Hall.
      exfalso. apply Hne. by apply Hall.
Qed.

Lemma translate_loop_reused returns run_result idxs :
  (forall i, i ∈ idxs -> (i < length returns)%nat) ->
  (for_each idxs (translate_step returns run_result) tt = Ok tt <->
   forall i, i ∈ idxs -> buffer_reused returns run_result i) /\
  (for_each idxs (translate_step returns run_result) tt = Ok tt \/
   for_each idxs (translate_step returns run_result) tt = Fatal ResultBufferMismatch).
Proof.
  induction idxs as [|j rest IH]; intros Hin; simpl.
  - split; [|by left]. split; [|done]. intros _ i Hi. by apply not_elem_of_nil in Hi.
  - destruct (translate_step_reused returns run_result j tt) as [Hiff Hor];
      [apply Hin; left|].
    destruct IH as [IHiff IHor]; [intros i Hi; apply Hin; by right|].
    destruct (translate_step returns run_result j tt) as [[]|e] eqn:Hstep.
    + split; [|done]. rewrite IHiff. split.
      * intros Hrest i Hi. apply elem_of_cons in Hi as [->|Hi]; [by apply Hiff|auto].
      * intros Hall i Hi. apply Hall. by right.
    + destruct Hor as [?|Hor]; [done|]. inversion Hor; subst.
      split; [|by right]. split; [done|]. intros Hall.
      exfalso. assert (Fatal ResultBufferMismatch = Ok tt); [|done].
      apply Hiff, Hall. left.
Qed.

(** The loop of lines 117-129 passes exactly when every return slot
    reuses the caller's output buffer; the only check it can fail is the
    pointer comparison. *)
Lemma translate_results_reused returns run_result :
  (translate_results returns run_result = Ok tt <->
   forall slot, buffer_reused returns run_result slot) /\
  (translate_results returns run_result = Ok tt \/
   translate_results returns run_result = Fatal ResultBufferMismatch).
Proof.
  unfold translate_results, for_range.
  destruct (translate_loop_reused returns run_result (seq 0 (length returns)))
    as [Hiff Hor].
  { intros i Hi. apply list_elem_of_In, in_seq in Hi. lia. }
  split; [|done]. rewrite Hiff. split.
  - intros Hall slot. destruct (decide (slot < length returns)%nat) as [Hlt|Hge].
    + apply Hall, list_elem_of_In, in_seq. lia.
    + intros output Hout. apply lookup_lt_Some in Hout. lia.
  - intros Hall i _. apply Hall.
Qed.

(** *** The run *)

Lemma events_since_same w : events_since w w = [].
Proof. unfold events_since. apply drop_all. Qed.

Lemma events_since_launched k ctx exe arguments block w :
  events_since w (launched_world k ctx exe arguments block w) =
  CallRunAsync arguments (run_options_of k ctx)
    :: (if block then [CallBlockHostUntilDone (stream ctx)] else []).
Proof. by apply events_since_app. Qed.

(** Either a check before the run fails and nothing has happened, or
    the arguments are marshalled and the executable is run. *)
Lemma launch_inversion k ctx exe entries shapes returns out_shape block w :
  let run := LaunchExecutable k ctx exe entries shapes returns out_shape block w in
  (run.2 = w /\ is_fatal run.1 = true /\
   (length entries <> length shapes \/ returns = [] \/
    exists e, marshal_arguments ctx entries shapes returns = Fatal e)) \/
  (exists arguments,
     length entries = length shapes /\ returns <> [] /\
     marshal_arguments ctx entries shapes returns = Ok arguments /\
     run =
     (match run_status k ctx exe arguments w with
      | StatusError => Fatal RunFailed
      | StatusOk run_result =>
          if IsTuple (result_host_shape run_result)
          then translate_results returns run_result
          else Fatal ResultShapeNotTuple
      end,
      launched_world k ctx exe arguments block w)).
Proof.
  intros run.
  pose proof (launch_cases k ctx exe entries shapes returns out_shape block w)
    as Hcases.
  cbv zeta in Hcases. fold run in Hcases.
  destruct (Nat.eqb_spec (length entries) (length shapes)) as [Hlen|Hlen];
    simpl in Hcases; [|left; rewrite Hcases; auto].
  destruct returns as [|r returns']; simpl in Hcases;
    [left; rewrite Hcases; auto|].
  destruct (marshal_arguments ctx entries shapes (r :: returns'))
    as [arguments|e] eqn:Hm.
  - right. exists arguments. done.
  - left. rewrite Hcases. simpl. eauto 6.
Qed.

Lemma launch_after_checks k ctx exe entries shapes returns out_shape block w
    arguments :
  length entries = length shapes -> returns <> [] ->
  marshal_arguments ctx entries shapes returns = Ok arguments ->
  LaunchExecutable k ctx exe entries shapes returns out_shape block w =
  (match run_status k ctx exe arguments w with
   | StatusError => Fatal RunFailed
   | StatusOk run_result =>
       if IsTuple (result_host_shape run_result)
       then translate_results returns run_result
       else Fatal ResultShapeNotTuple
   end,
   launched_world k ctx exe arguments block w).
Proof.
  intros Hlen Hret Hm.
  destruct (launch_inversion k ctx exe entries shapes returns out_shape block w)
    as [(_ & _ & [?|[?|[e He]]])|(arguments' & _ & _ & Hm' & Hrun)];
    [done|done|congruence|].
  rewrite Hm in Hm'. inversion Hm'; subst. exact Hrun.
Qed.

(** C3. [LaunchExecutable] returns only if the run gave a result whose
    host shape is a tuple and in which every return slot with a non-null
    buffer has the pointer of the caller's output blob of that slot. Once
    the executable has run: a result that is not a tuple is the fatal
    [ResultShapeNotTuple]; a tuple result with a non-null buffer that
    differs from the output blob's pointer at some slot is the fatal
    [ResultBufferMismatch]; and a tuple result that reuses every buffer
    passes. *)
Theorem launch_checks_the_result k ctx exe entries shapes returns out_shape
    block w :
  let run := LaunchExecutable k ctx exe entries shapes returns out_shape block w in
  (run.1 = Ok tt ->
   exists arguments run_result,
     marshal_arguments ctx entries shapes returns = Ok arguments /\
     run_status k ctx exe arguments w = StatusOk run_result /\
     IsTuple (result_host_shape run_result) = true /\
     forall slot, buffer_reused returns run_result slot) /\
  (forall arguments run_result,
     length entries = length shapes -> returns <> [] ->
     marshal_arguments ctx entries shapes returns = Ok arguments ->
     run_status k ctx exe arguments w = StatusOk run_result ->
     (IsTuple (result_host_shape run_result) = false ->
      run.1 = Fatal ResultShapeNotTuple) /\
     (IsTuple (result_host_shape run_result) = true ->
      (exists slot output,
         returns !! slot = Some output /\
         opaque (result_buffer run_result [Z.of_nat slot]) <> nullptr /\
         opaque (result_buffer run_result [Z.of_nat slot]) <> mut_dptr output) ->
      run.1 = Fatal ResultBufferMismatch) /\
     (IsTuple (result_host_shape run_result) = true ->
      (forall slot, buffer_reused returns run_result slot) ->
      run.1 = Ok tt)).
Proof.
  intros run. subst run. split.
  - intros Hok.
    destruct (launch_inversion k ctx exe entries shapes returns out_shape block w)
      as [(_ & Hfatal & _)|(arguments & _ & _ & Hm & Hrun)].
    + rewrite Hok in Hfatal. done.
    + exists arguments. rewrite Hrun in Hok. simpl in Hok.
      destruct (run_status k ctx exe arguments w) as [run_result|]; [|done].
      exists run_result.
      destruct (IsTuple (result_host_shape run_result)); [|done].
      repeat split; try done. by apply translate_results_reused.
  - intros arguments run_result Hlen Hret Hm Hstatus.
    rewrite (launch_after_checks _ _ _ _ _ _ _ _ _ _ Hlen Hret Hm), Hstatus.
    simpl. destruct (translate_results_reused returns run_result) as [Hiff Hor].
    split; [by intros ->|]. split.
    + intros -> (slot & output & Hout & Hnull & Hne).
      destruct Hor as [Hok|Hbad]; [|done].
      exfalso. apply Hne. by apply (proj1 Hiff Hok slot).
    + intros -> Hall. by apply Hiff.
Qed.

Lemma launch_checks_the_result_example :
  let launch := fun r =>
    (LaunchExecutable (Demo.kernel kCPU) Demo.ctx (Demo.exe_returning r [0; 1])
       Demo.entries Demo.input_shapes Demo.returns (xla_output_shape Demo.artifact)
       true Demo.fresh_world).1 in
  launch Demo.flat_result = Fatal ResultShapeNotTuple /\
  launch Demo.stray_result = Fatal ResultBufferMismatch /\
  launch Demo.reusing_result = Ok tt.
Proof.
  intros launch. subst launch. cbv beta. split; [|split].
  - apply (proj2 (launch_checks_the_result (Demo.kernel kCPU) Demo.ctx
                    (Demo.exe_returning Demo.flat_result [0; 1]) Demo.entries
                    Demo.input_shapes Demo.returns (xla_output_shape Demo.artifact)
                    true Demo.fresh_world)
             Demo.arguments Demo.flat_result); reflexivity || discriminate.
  - apply (proj2 (launch_checks_the_result (Demo.kernel kCPU) Demo.ctx
                    (Demo.exe_returning Demo.stray_result [0; 1]) Demo.entries
                    Demo.input_shapes Demo.returns (xla_output_shape Demo.artifact)
                    true Demo.fresh_world)
             Demo.arguments Demo.stray_result);
      try (reflexivity || discriminate).
    exists 1%nat, Demo.blob_b. split; [reflexivity|]. split; discriminate.
  - apply (proj2 (launch_checks_the_result (Demo.kernel kCPU) Demo.ctx
                    (Demo.exe_returning Demo.reusing_result [0; 1]) Demo.entries
                    Demo.input_shapes Demo.returns (xla_output_shape Demo.artifact)
                    true Demo.fresh_world)
             Demo.arguments Demo.reusing_result);
      try (reflexivity || discriminate).
    intros [|[|slot]] output Hout Hnull; simpl in Hout.
    + inversion Hout; subst. reflexivity.
    + inversion Hout; subst. reflexivity.
    + discriminate.
Defined.

(** C5. The arguments [LaunchExecutable] runs the executable on hold
    one buffer per entry tensor. The buffer of an entry whose data
    pointer is null while its byte size is positive carries the data
    pointer of the first return tensor; the buffer of any other entry
    carries the entry's own data pointer. With as many entries as input
    shapes, a return tensor and no tuple-shaped input, the executable is
    run. *)
Theorem placeholder_entries_borrow_the_first_return k ctx exe entries shapes
    returns out_shape block w :
  let run := LaunchExecutable k ctx exe entries shapes returns out_shape block w in
  (forall arguments options,
     CallRunAsync arguments options ∈ events_since w run.2 ->
     length arguments = length entries /\
     forall i entry, entries !! i = Some entry ->
       exists buf,
         arguments !! i = Some (Some buf) /\
         mem_size (root_buffer buf) = ByteSizeOfDataContentField entry /\
         (0 < ByteSizeOfDataContentField entry -> dptr entry = nullptr ->
          exists first, returns !! 0%nat = Some first /\
                        opaque (root_buffer buf) = dptr first) /\
         (~ (0 < ByteSizeOfDataContentField entry /\ dptr entry = nullptr) ->
          opaque (root_buffer buf) = dptr entry)) /\
  (length entries = length shapes -> returns <> [] ->
   (forall i shape, shapes !! i = Some shape ->
      IsTuple (HostShapeToDeviceShape (client ctx) shape) = false) ->
   exists arguments,
     CallRunAsync arguments (run_options_of k ctx) ∈ events_since w run.2).
Proof.
  intros run. subst run. split.
  - intros arguments options Hev.
    destruct (launch_inversion k ctx exe entries shapes returns out_shape block w)
      as [(Hw & _)|(arguments' & Hlen & _ & Hm & Hrun)].
    + rewrite Hw, events_since_same in Hev. by apply not_elem_of_nil in Hev.
    + rewrite Hrun in Hev. simpl in Hev. rewrite events_since_launched in Hev.
      assert (arguments = arguments') as ->.
      { apply elem_of_cons in Hev as [Hev|Hev]; [by inversion Hev|].
        destruct block; [|by apply not_elem_of_nil in Hev].
        apply list_elem_of_singleton in Hev. discriminate. }
      apply marshal_arguments_ok in Hm as [Hlen' Hslots].
      split; [congruence|]. intros i entry Hentry.
      destruct (Hslots i) as (buf & Hbuf & Hgood).
      { apply lookup_lt_Some in Hentry. lia. }
      exists buf. split; [done|].
      destruct Hgood as (shape & entry' & _ & Hentry' & _ & _ & _ & _ & _ & Hsize
                         & Hplace & Hown).
      rewrite Hentry in Hentry'. inversion Hentry'; subst. done.
  - intros Hlen Hret Hflat.
    destruct (marshal_arguments ctx entries shapes returns) as [arguments|e] eqn:Hm.
    + exists arguments.
      rewrite (launch_after_checks _ _ _ _ _ _ _ _ _ _ Hlen Hret Hm). simpl.
      rewrite events_since_launched. left.
    + apply marshal_arguments_fatal in Hm as (_ & i & shape & Hs & Ht); try done.
      rewrite (Hflat i shape Hs) in Ht. done.
Qed.

Lemma placeholder_entries_borrow_the_first_return_example :
  let run :=
    LaunchExecutable (Demo.kernel kCPU) Demo.ctx Demo.exe Demo.entries
      Demo.input_shapes Demo.returns (xla_output_shape Demo.artifact) true
      Demo.fresh_world in
  CallRunAsync Demo.arguments Demo.options ∈ events_since Demo.fresh_world run.2 /\
  Demo.entries !! 2%nat = Some Demo.blob_c /\
  0 < ByteSizeOfDataContentField Demo.blob_c /\
  dptr Demo.blob_c = nullptr /\
  exists buf first,
    Demo.arguments !! 2%nat = Some (Some buf) /\
    Demo.returns !! 0%nat = Some first /\
    opaque (root_buffer buf) = dptr first.
Proof.
  intros run. subst run.
  assert (Hev : CallRunAsync Demo.arguments Demo.options
                  ∈ events_since Demo.fresh_world
                      (LaunchExecutable (Demo.kernel kCPU) Demo.ctx Demo.exe
                         Demo.entries Demo.input_shapes Demo.returns
                         (xla_output_shape Demo.artifact) true
                         Demo.fresh_world).2).
  { apply list_elem_of_In. vm_compute. auto. }
  split; [exact Hev|]. split; [reflexivity|]. split; [reflexivity|].
  split; [reflexivity|].
  destruct (proj2 (proj1 (placeholder_entries_borrow_the_first_return
                            (Demo.kernel kCPU) Demo.ctx Demo.exe Demo.entries
                            Demo.input_shapes Demo.returns
                            (xla_output_shape Demo.artifact) true
                            Demo.fresh_world)
                     Demo.arguments Demo.options Hev)
              2%nat Demo.blob_c eq_refl)
    as (buf & Hbuf & _ & Hplace & _).
  destruct (Hplace eq_refl eq_refl) as (first & Hfirst & Hptr).
  exists buf, first. auto.
Defined.

(** C7. An input shape whose device shape is a tuple makes
    [LaunchExecutable] fail fatally before anything is run; after the two
    size checks the failure is the tuple check itself. When no input has
    a tuple device shape, the tuple check never fails. *)
Theorem tuple_inputs_are_rejected k ctx exe entries shapes returns out_shape
    block w :
  let run := LaunchExecutable k ctx exe entries shapes returns out_shape block w in
  (forall i shape,
     shapes !! i = Some shape ->
     IsTuple (HostShapeToDeviceShape (client ctx) shape) = true ->
     is_fatal run.1 = true /\ run.2 = w /\
     (length entries = length shapes -> returns <> [] ->
      run.1 = Fatal TupleInputNotAllowed)) /\
  ((forall i shape,
      shapes !! i = Some shape ->
      IsTuple (HostShapeToDeviceShape (client ctx) shape) = false) ->
   run.1 <> Fatal TupleInputNotAllowed).
Proof.
  intros run. subst run.
  destruct (launch_inversion k ctx exe entries shapes returns out_shape block w)
    as [(Hw & Hfatal & Hwhy)|(arguments & Hlen & Hret & Hm & Hrun)].
  - split.
    + intros i shape Hs Ht. split; [done|]. split; [done|].
      intros Hlen Hret. destruct Hwhy as [?|[?|[e He]]]; [done|done|].
      pose proof (launch_cases k ctx exe entries shapes returns out_shape block w)
        as Hcases.
      cbv zeta in Hcases. rewrite (proj2 (Nat.eqb_eq _ _) Hlen) in Hcases.
      destruct returns as [|r returns']; [done|]. simpl in Hcases.
      rewrite He in Hcases. rewrite Hcases. simpl.
      apply marshal_arguments_fatal in He as [-> _]; done.
    + intros Hflat Hbad.
      pose proof (launch_cases k ctx exe entries shapes returns out_shape block w)
        as Hcases.
      cbv zeta in Hcases.
      destruct (negb (length entries =? length shapes)%nat) eqn:Hlen;
        [rewrite Hcases in Hbad; done|].
      destruct (negb (0 <? length returns)%nat) eqn:Hret;
        [rewrite Hcases in Hbad; done|].
      destruct (marshal_arguments ctx entries shapes returns) as [arguments|e] eqn:Hm.
      * rewrite Hcases in Hbad. simpl in Hbad.
        destruct (run_status k ctx exe arguments w) as [rr|]; [|done].
        destruct (IsTuple (result_host_shape rr)); [|done].
        destruct (translate_results_reused returns rr) as [_ [Hr|Hr]];
          rewrite Hr in Hbad; done.
      * rewrite Hcases in Hbad. simpl in Hbad. inversion Hbad; subst.
        apply negb_false_iff, Nat.eqb_eq in Hlen.
        apply negb_false_iff, Nat.ltb_lt in Hret.
        apply marshal_arguments_fatal in Hm as (_ & i & shape & Hs & Ht);
          [|done|by destruct returns; [simpl in Hret; lia|]].
        rewrite (Hflat i shape Hs) in Ht. done.
  - apply marshal_arguments_ok in Hm as [Hlen' Hslots]. split.
    + intros i shape Hs Ht. exfalso.
      destruct (Hslots i) as (buf & _ & shape' & entry & Hs' & _ & Ht' & _).
      { by apply lookup_lt_Some in Hs. }
      rewrite Hs in Hs'. inversion Hs'; subst. congruence.
    + intros _ Hbad. rewrite Hrun in Hbad. simpl in Hbad.
      destruct (run_status k ctx exe arguments w) as [rr|]; [|done].
      destruct (IsTuple (result_host_shape rr)); [|done].
      destruct (translate_results_reused returns rr) as [_ [Hr|Hr]];
        rewrite Hr in Hbad; done.
Qed.

Lemma tuple_inputs_are_rejected_example :
  let run :=
    LaunchExecutable (Demo.kernel kCPU) Demo.ctx Demo.exe Demo.entries
      Demo.tuple_shapes Demo.returns (xla_output_shape Demo.artifact) true
      Demo.fresh_world in
  Demo.tuple_shapes !! 1%nat = Some (TupleShape [Demo.f32 [4]]) /\
  is_fatal run.1 = true /\ run.2 = Demo.fresh_world /\
  run.1 = Fatal TupleInputNotAllowed.
Proof.
  intros run. subst run. split; [reflexivity|].
  destruct (proj1 (tuple_inputs_are_rejected (Demo.kernel kCPU) Demo.ctx Demo.exe
                     Demo.entries Demo.tuple_shapes Demo.returns
                     (xla_output_shape Demo.artifact) true Demo.fresh_world)
              1%nat (TupleShape [Demo.f32 [4]]) eq_refl eq_refl)
    as (Hfatal & Hworld & Hkind).
  split; [exact Hfatal|]. split; [exact Hworld|].
  apply Hkind; [reflexivity|discriminate].
Defined.

(** C10. Once the executable has run and returned a tuple, the rest of
    [LaunchExecutable] is the loop over the return slots and nothing
    else: the world it leaves is the one the run left (device memory as
    the run wrote it, no call logged after the run and the wait), and its
    outcome is the outcome of the loop. In the loop a slot whose result
    buffer is null passes without any check, a slot whose buffer is not
    null is only compared with the output blob's pointer, and the loop
    passes exactly when every non-null buffer is the caller's. *)
Theorem result_translation_only_checks k ctx exe entries shapes returns
    out_shape block w arguments run_result :
  length entries = length shapes -> returns <> [] ->
  marshal_arguments ctx entries shapes returns = Ok arguments ->
  run_status k ctx exe arguments w = StatusOk run_result ->
  IsTuple (result_host_shape run_result) = true ->
  LaunchExecutable k ctx exe entries shapes returns out_shape block w =
    (translate_results returns run_result,
     launched_world k ctx exe arguments block w) /\
  (forall slot u, (slot < length returns)%nat ->
     opaque (result_buffer run_result [Z.of_nat slot]) = nullptr ->
     translate_step returns run_result slot u = Ok tt) /\
  (forall slot u output, returns !! slot = Some output ->
     opaque (result_buffer run_result [Z.of_nat slot]) <> nullptr ->
     translate_step returns run_result slot u =
     if opaque (result_buffer run_result [Z.of_nat slot]) =? mut_dptr output
     then Ok tt else Fatal ResultBufferMismatch) /\
  (translate_results returns run_result = Ok tt <->
   forall slot, buffer_reused returns run_result slot).
Proof.
  intros Hlen Hret Hm Hstatus Htuple.
  split; [|split; [|split]].
  - rewrite (launch_after_checks _ _ _ _ _ _ _ _ _ _ Hlen Hret Hm).
    by rewrite Hstatus, Htuple.
  - intros slot u Hslot Hnull.
    destruct (lookup_lt_is_Some_2 returns slot Hslot) as [output Hout].
    rewrite (translate_step_cases _ _ _ _ _ Hout), Hnull. done.
  - intros slot u output Hout Hnull.
    rewrite (translate_step_cases _ _ _ _ _ Hout).
    by destruct (Z.eqb_spec (opaque (result_buffer run_result [Z.of_nat slot]))
                   nullptr).
  - apply translate_results_reused.
Qed.

Lemma result_translation_only_checks_example :
  LaunchExecutable (Demo.kernel kGPU) Demo.ctx Demo.exe Demo.entries
    Demo.input_shapes Demo.returns (xla_output_shape Demo.artifact) false
    Demo.fresh_world =
  (translate_results Demo.returns Demo.reusing_result,
   launched_world (Demo.kernel kGPU) Demo.ctx Demo.exe Demo.arguments false
     Demo.fresh_world).
Proof.
  apply (result_translation_only_checks (Demo.kernel kGPU) Demo.ctx Demo.exe
           Demo.entries Demo.input_shapes Demo.returns
           (xla_output_shape Demo.artifact) false Demo.fresh_world
           Demo.arguments Demo.reusing_result);
    reflexivity || discriminate.
Defined.

(** The checks [LaunchExecutable] can fail, and when. *)
Lemma launch_fatal_kinds k ctx exe entries shapes returns out_shape block w e :
  (LaunchExecutable k ctx exe entries shapes returns out_shape block w).1 = Fatal e ->
  match e with
  | InputShapesSizeMismatch => length entries <> length shapes
  | NeedOneRealOutput => length entries = length shapes /\ returns = []
  | TupleInputNotAllowed =>
      exists i shape, shapes !! i = Some shape /\
        IsTuple (HostShapeToDeviceShape (client ctx) shape) = true
  | RunFailed | ResultShapeNotTuple | ResultBufferMismatch =>
      length entries = length shapes /\ returns <> []
  | _ => False
  end.
Proof.
  intros Hrun.
  pose proof (launch_cases k ctx exe entries shapes returns out_shape block w)
    as Hcases.
  cbv zeta in Hcases.
  destruct (Nat.eqb_spec (length entries) (length shapes)) as [Hlen|Hlen];
    simpl in Hcases.
  2: { rewrite Hcases in Hrun. inversion Hrun; subst. done. }
  destruct returns as [|r returns']; simpl in Hcases.
  { rewrite Hcases in Hrun. inversion Hrun; subst. done. }
  destruct (marshal_arguments ctx entries shapes (r :: returns'))
    as [arguments|e'] eqn:Hm; rewrite Hcases in Hrun; simpl in Hrun.
  - destruct (run_status k ctx exe arguments w) as [rr|];
      [|inversion Hrun; subst; done].
    destruct (IsTuple (result_host_shape rr)); [|inversion Hrun; subst; done].
    destruct (translate_results_reused (r :: returns') rr) as [_ [Hr|Hr]];
      rewrite Hr in Hrun; inversion Hrun; subst; done.
  - inversion Hrun; subst.
    apply marshal_arguments_fatal in Hm as [-> Hex]; done.
Qed.

(** The calls [LaunchExecutable] logs: none when a check before the run
    fails, else the run followed by the wait on the stream when blocking
    was asked for. *)
Lemma launch_events k ctx exe entries shapes returns out_shape block w :
  let run := LaunchExecutable k ctx exe entries shapes returns out_shape block w in
  exists evs,
    trace run.2 = trace w ++ evs /\
    ((evs = [] /\ is_fatal run.1 = true) \/
     (length entries = length shapes /\ returns <> [] /\
      exists arguments,
        evs = CallRunAsync arguments (run_options_of k ctx)
              :: (if block then [CallBlockHostUntilDone (stream ctx)] else []))).
Proof.
  intros run. subst run.
  destruct (launch_inversion k ctx exe entries shapes returns out_shape block w)
    as [(Hw & Hfatal & _)|(arguments & Hlen & Hret & _ & Hrun)].
  - exists []. rewrite Hw, app_nil_r. auto.
  - rewrite Hrun. simpl. eexists. split; [reflexivity|]. right.
    split; [done|]. split; [done|]. by exists arguments.
Qed.

(** ** ForwardDataContent *)

Lemma initial_frame_sizes k B :
  length (entry_blobs (initial_frame k B)) =
  length (entry_blob_names (initial_frame k B)).
Proof. unfold initial_frame. simpl. by rewrite !length_fmap. Qed.

(** With a launch configuration, [ForwardDataContent] resolves the
    aliases, obtains an artifact from [BuildLocalExecutable], compares
    the number of allocation indices with the number of return tensors,
    and launches. *)
Lemma forward_cases k B w :
  let run := ForwardDataContent k B w in
  let ctx := launch_ctx_of k in
  if has_xla_launch_conf k then
    exists f cr w1,
      AliasMutableInputsAndOutputs (launch_attr k) (initial_frame k B) = Ok f /\
      BuildLocalExecutable k ctx (entry_blobs f) (return_blobs f)
        (entry_blob_names f) (return_blob_names f) (aliases f) None
        (logged CallAliasMutableInputsAndOutputs w) = (Ok (Some cr), w1) /\
      trace w1 = trace w ++ CallAliasMutableInputsAndOutputs
                   :: build_events k f w (signature_of k B) /\
      run =
      if (length (return_blobs f) =? length (ResultAllocationIndices (executable cr)))%nat
      then LaunchExecutable k ctx (executable cr) (entry_blobs f)
             (xla_input_shapes cr) (return_blobs f) (xla_output_shape cr)
             (blocking_policy (device_type k))
             (logged (CallPopulateResultBuffers (return_blobs f)
                        (ResultAllocationIndices (executable cr))) w1)
      else (Fatal AllocationIndicesMismatch, w1)
  else run = (Fatal ForwardNeedsLaunchConf, w).
Proof.
  intros run ctx. subst run.
  unfold ForwardDataContent, bind at 1, CHECK.
  destruct (has_xla_launch_conf k) eqn:Hconf; [|done].
  unfold ret, bind at 1, call_AliasMutableInputsAndOutputs, bind at 1, log, lift.
  destruct (alias_total (launch_attr k) (initial_frame k B)
              (initial_frame_sizes k B)) as [f Hf].
  rewrite Hf. fold (launch_ctx_of k). fold ctx.
  destruct (alias_extends _ _ _ Hf) as (Hentries & _).
  pose proof (build_cases k ctx (entry_blobs f) (return_blobs f)
                (entry_blob_names f) (return_blob_names f) (aliases f) None
                (logged CallAliasMutableInputsAndOutputs w)) as Hbuild.
  cbv zeta in Hbuild. rewrite Hconf in Hbuild.
  assert (Hsig : ComputeSignature (builder_name ctx) (device_ordinal ctx)
                   (entry_blobs f) = signature_of k B).
  { unfold signature_of. fold ctx. by rewrite Hentries. }
  rewrite Hsig in Hbuild.
  assert (Hcache : the_cache (logged CallAliasMutableInputsAndOutputs w) = the_cache w)
    by done.
  rewrite Hcache in Hbuild.
  unfold bind at 1.
  assert (exists cr w1,
            BuildLocalExecutable k ctx (entry_blobs f) (return_blobs f)
              (entry_blob_names f) (return_blob_names f) (aliases f) None
              (logged CallAliasMutableInputsAndOutputs w) = (Ok (Some cr), w1) /\
            trace w1 = trace w ++ CallAliasMutableInputsAndOutputs
                         :: build_events k f w (signature_of k B))
    as (cr & w1 & Hrun & Htrace).
  { unfold build_events.
    destruct (cache_get (the_cache w) (signature_of k B)) as [hit|].
    - destruct Hbuild as (w1 & Hrun & _ & Ht & _). exists hit, w1.
      split; [done|]. rewrite Ht. simpl. by rewrite <- app_assoc.
    - destruct Hbuild as (w1 & Hrun & _ & Ht & _). eexists _, w1.
      split; [done|]. rewrite Ht. simpl. by rewrite <- app_assoc. }
  exists f, cr, w1. rewrite Hrun. repeat split; try done.
  unfold bind, CHECK, PopulateResultBuffers, log, ret, fatal.
  by destruct (length (return_blobs f) =? _)%nat.
Qed.

Lemma build_events_not_launch k f w sig ev :
  ev ∈ CallAliasMutableInputsAndOutputs :: build_events k f w sig ->
  is_launch_event ev = false.
Proof.
  unfold build_events. intros Hev.
  destruct (cache_get (the_cache w) sig);
    repeat (apply elem_of_cons in Hev as [->|Hev]; [done|]);
    by apply not_elem_of_nil in Hev.
Qed.

(** The calls of one invocation that has a launch configuration: alias
    resolution, the calls of [BuildLocalExecutable], then the launch
    phase, which stops at the first check that fails. *)
Lemma forward_tail k B w f cr w1 :
  has_xla_launch_conf k = true ->
  AliasMutableInputsAndOutputs (launch_attr k) (initial_frame k B) = Ok f ->
  BuildLocalExecutable k (launch_ctx_of k) (entry_blobs f) (return_blobs f)
    (entry_blob_names f) (return_blob_names f) (aliases f) None
    (logged CallAliasMutableInputsAndOutputs w) = (Ok (Some cr), w1) ->
  let run := ForwardDataContent k B w in
  let ctx := launch_ctx_of k in
  let n_alloc := length (ResultAllocationIndices (executable cr)) in
  let populate :=
    CallPopulateResultBuffers (return_blobs f)
      (ResultAllocationIndices (executable cr)) in
  exists tail,
    events_since w run.2 =
      CallAliasMutableInputsAndOutputs
        :: build_events k f w (signature_of k B) ++ tail /\
    ((length (return_blobs f) <> n_alloc /\ tail = [] /\
      run.1 = Fatal AllocationIndicesMismatch) \/
     (length (return_blobs f) = n_alloc /\ tail = [populate] /\
      run.1 =
        (LaunchExecutable k ctx (executable cr) (entry_blobs f)
           (xla_input_shapes cr) (return_blobs f) (xla_output_shape cr)
           (blocking_policy (device_type k)) (logged populate w1)).1 /\
      is_fatal run.1 = true) \/
     (length (return_blobs f) = n_alloc /\
      run.1 =
        (LaunchExecutable k ctx (executable cr) (entry_blobs f)
           (xla_input_shapes cr) (return_blobs f) (xla_output_shape cr)
           (blocking_policy (device_type k)) (logged populate w1)).1 /\
      length (entry_blobs f) = length (xla_input_shapes cr) /\
      return_blobs f <> [] /\
      exists arguments,
        tail = populate :: CallRunAsync arguments (run_options_of k ctx)
                 :: (if blocking_policy (device_type k)
                     then [CallBlockHostUntilDone (stream ctx)] else []))).
Proof.
  intros Hconf Hf Hbuild run ctx n_alloc populate. subst run.
  pose proof (forward_cases k B w) as Hcases. cbv zeta in Hcases.
  rewrite Hconf in Hcases.
  destruct Hcases as (f' & cr' & w1' & Hf' & Hbuild' & Htrace & Hrun).
  rewrite Hf in Hf'. inversion Hf'; subst f'. clear Hf'.
  rewrite Hbuild in Hbuild'. inversion Hbuild'; subst cr' w1'. clear Hbuild'.
  fold ctx n_alloc populate in Hrun.
  rewrite Hrun. clear Hrun.
  destruct (Nat.eqb_spec (length (return_blobs f)) n_alloc) as [Hn|Hn].
  - destruct (launch_events k ctx (executable cr) (entry_blobs f)
                (xla_input_shapes cr) (return_blobs f) (xla_output_shape cr)
                (blocking_policy (device_type k)) (logged populate w1))
      as (evs & Hevs & Hkind).
    simpl in Hevs. rewrite Htrace in Hevs.
    exists (populate :: evs). split.
    { apply events_since_app. rewrite Hevs. rewrite <- !app_assoc. reflexivity. }
    right.
    destruct Hkind as [[-> Hfatal]|(Hlen & Hret & arguments & ->)]; [left|right];
      eauto 8.
  - exists []. split.
    { apply events_since_app. simpl. by rewrite app_nil_r. }
    by left.
Qed.

(** Without a launch configuration nothing is called. *)
Lemma forward_without_conf k B w :
  has_xla_launch_conf k = false ->
  ForwardDataContent k B w = (Fatal ForwardNeedsLaunchConf, w).
Proof.
  intros Hconf. pose proof (forward_cases k B w) as Hcases.
  cbv zeta in Hcases. by rewrite Hconf in Hcases.
Qed.

(** With one, alias resolution and [BuildLocalExecutable] succeed. *)
Lemma forward_reaches_the_launch k B w :
  has_xla_launch_conf k = true ->
  exists f cr w1,
    AliasMutableInputsAndOutputs (launch_attr k) (initial_frame k B) = Ok f /\
    BuildLocalExecutable k (launch_ctx_of k) (entry_blobs f) (return_blobs f)
      (entry_blob_names f) (return_blob_names f) (aliases f) None
      (logged CallAliasMutableInputsAndOutputs w) = (Ok (Some cr), w1).
Proof.
  intros Hconf. pose proof (forward_cases k B w) as Hcases.
  cbv zeta in Hcases. rewrite Hconf in Hcases.
  destruct Hcases as (f & cr & w1 & Hf & Hbuild & _). eauto.
Qed.

(** C4. The blocking flag depends on the device class alone: it is set
    for the host class and cleared for the accelerator class. An
    invocation that returns has run the executable. On a host-class
    device the call that runs it is followed by the wait on the stream,
    and nothing else, before the invocation is over; on an
    accelerator-class device the run is the last call and the stream is
    never waited on. *)
Theorem blocking_follows_the_device_class k B w :
  let run := ForwardDataContent k B w in
  let evs := events_since w run.2 in
  let wait := CallBlockHostUntilDone (stream (launch_ctx_of k)) in
  blocking_policy kCPU = true /\
  blocking_policy kGPU = false /\
  (run.1 = Ok tt -> exists arguments options, CallRunAsync arguments options ∈ evs) /\
  (device_type k = kCPU ->
   forall arguments options, CallRunAsync arguments options ∈ evs ->
     exists before, evs = before ++ [CallRunAsync arguments options; wait]) /\
  (device_type k = kGPU ->
   (forall on_stream, CallBlockHostUntilDone on_stream ∉ evs) /\
   forall arguments options, CallRunAsync arguments options ∈ evs ->
     exists before, evs = before ++ [CallRunAsync arguments options]).
Proof.
  intros run evs wait. subst run evs wait.
  split; [done|]. split; [done|].
  destruct (has_xla_launch_conf k) eqn:Hconf.
  2: { rewrite (forward_without_conf k B w Hconf). simpl.
       rewrite events_since_same. split; [done|].
       split; [intros _ a o Hev|intros _; split; [intros s Hev|intros a o Hev]];
         by apply not_elem_of_nil in Hev. }
  destruct (forward_reaches_the_launch k B w Hconf) as (f & cr & w1 & Hf & Hbuild).
  destruct (forward_tail k B w f cr w1 Hconf Hf Hbuild) as (tail & Hevs & Hkind).
  rewrite Hevs. clear Hevs.
  assert (Hpre : forall ev tl,
            ev ∈ CallAliasMutableInputsAndOutputs
                   :: build_events k f w (signature_of k B) ++ tl ->
            is_launch_event ev = true -> ev ∈ tl).
  { intros ev tl Hev Hlaunch.
    change (ev ∈ (CallAliasMutableInputsAndOutputs
                    :: build_events k f w (signature_of k B)) ++ tl) in Hev.
    apply elem_of_app in Hev as [Hev|Hev]; [|done].
    apply build_events_not_launch in Hev. congruence. }
  destruct Hkind as [(_ & -> & Hrun)|[(_ & -> & _ & Hfatal)
                    |(_ & _ & _ & _ & arguments & ->)]].
  - split; [intros Hok; congruence|].
    split; [intros _ a o Hev|intros _; split; [intros s Hev|intros a o Hev]];
      apply Hpre in Hev; try done; by apply not_elem_of_nil in Hev.
  - split; [intros Hok; rewrite Hok in Hfatal; done|].
    split; [intros _ a o Hev|intros _; split; [intros s Hev|intros a o Hev]];
      apply Hpre in Hev; try done;
      apply list_elem_of_singleton in Hev; discriminate.
  - split.
    { intros _. eexists _, _. right. apply elem_of_app. right. right. left. }
    split.
    + intros Hcpu a o Hev. rewrite Hcpu in *.
      change (blocking_policy kCPU) with true in *. cbv iota in *.
      apply Hpre in Hev; [|done].
      repeat (apply elem_of_cons in Hev as [Hev|Hev]; [try discriminate|]);
        [|by apply not_elem_of_nil in Hev].
      inversion Hev; subst.
      eexists (CallAliasMutableInputsAndOutputs :: build_events _ _ _ _ ++ [_]).
      rewrite <- app_comm_cons, <- app_assoc. reflexivity.
    + intros Hgpu. rewrite Hgpu.
      change (blocking_policy kGPU) with false. cbv iota. split.
      * intros s Hev. apply Hpre in Hev; [|done].
        repeat (apply elem_of_cons in Hev as [Hev|Hev]; [discriminate|]).
        by apply not_elem_of_nil in Hev.
      * intros a o Hev. apply Hpre in Hev; [|done].
        repeat (apply elem_of_cons in Hev as [Hev|Hev]; [try discriminate|]);
          [|by apply not_elem_of_nil in Hev].
        inversion Hev; subst.
        eexists (CallAliasMutableInputsAndOutputs :: build_events _ _ _ _ ++ [_]).
        rewrite <- app_comm_cons, <- app_assoc. reflexivity.
Qed.

Lemma blocking_follows_the_device_class_example :
  let evs := fun d =>
    events_since Demo.fresh_world
      (ForwardDataContent (Demo.kernel d) Demo.BnInOp2Blob Demo.fresh_world).2 in
  (device_type (Demo.kernel kCPU) = kCPU /\
   CallRunAsync Demo.arguments Demo.options ∈ evs kCPU /\
   exists before,
     evs kCPU = before ++ [CallRunAsync Demo.arguments Demo.options;
                           CallBlockHostUntilDone 7]) /\
  (device_type (Demo.kernel kGPU) = kGPU /\
   (forall on_stream, CallBlockHostUntilDone on_stream ∉ evs kGPU) /\
   exists before,
     evs kGPU = before ++ [CallRunAsync Demo.arguments Demo.options]).
Proof.
  intros evs. subst evs. cbv beta.
  assert (Hrun : forall d,
            CallRunAsync Demo.arguments Demo.options
              ∈ events_since Demo.fresh_world
                  (ForwardDataContent (Demo.kernel d) Demo.BnInOp2Blob
                     Demo.fresh_world).2).
  { intros d. apply list_elem_of_In. destruct d; vm_compute; auto 10. }
  split; (split; [reflexivity|]).
  - split; [apply Hrun|].
    exact (proj1 (proj2 (proj2 (proj2
             (blocking_follows_the_device_class (Demo.kernel kCPU)
                Demo.BnInOp2Blob Demo.fresh_world))))
             eq_refl Demo.arguments Demo.options (Hrun kCPU)).
  - destruct (proj2 (proj2 (proj2 (proj2
                (blocking_follows_the_device_class (Demo.kernel kGPU)
                   Demo.BnInOp2Blob Demo.fresh_world)))) eq_refl)
      as [Hnowait Hlast].
    split; [exact Hnowait|].
    exact (Hlast Demo.arguments Demo.options (Hrun kGPU)).
Defined.

(** C6. Take an invocation that has resolved its aliases into the frame
    [f] and obtained the artifact [cr]. If the number of entry tensors
    differs from the number of input shapes of the artifact, or there is
    no return tensor, or the artifact's allocation indices are not as
    many as the return tensors, the invocation fails fatally and the
    executable is never run. The check that fails is the first one in
    program order: allocation indices, then input shapes, then return
    count. Conversely each of the three checks cannot fail when its
    condition holds. *)
Theorem size_mismatches_abort_before_the_run k B w f cr w1 :
  has_xla_launch_conf k = true ->
  AliasMutableInputsAndOutputs (launch_attr k) (initial_frame k B) = Ok f ->
  BuildLocalExecutable k (launch_ctx_of k) (entry_blobs f) (return_blobs f)
    (entry_blob_names f) (return_blob_names f) (aliases f) None
    (logged CallAliasMutableInputsAndOutputs w) = (Ok (Some cr), w1) ->
  let run := ForwardDataContent k B w in
  let n_entries := length (entry_blobs f) in
  let n_returns := length (return_blobs f) in
  let n_shapes := length (xla_input_shapes cr) in
  let n_alloc := length (ResultAllocationIndices (executable cr)) in
  (n_entries <> n_shapes \/ n_returns = 0%nat \/ n_alloc <> n_returns ->
   is_fatal run.1 = true /\
   forall arguments options,
     CallRunAsync arguments options ∉ events_since w run.2) /\
  (n_alloc <> n_returns -> run.1 = Fatal AllocationIndicesMismatch) /\
  (n_alloc = n_returns -> n_entries <> n_shapes ->
   run.1 = Fatal InputShapesSizeMismatch) /\
  (n_alloc = n_returns -> n_entries = n_shapes -> n_returns = 0%nat ->
   run.1 = Fatal NeedOneRealOutput) /\
  (n_alloc = n_returns -> run.1 <> Fatal AllocationIndicesMismatch) /\
  (n_entries = n_shapes -> run.1 <> Fatal InputShapesSizeMismatch) /\
  (n_returns <> 0%nat -> run.1 <> Fatal NeedOneRealOutput).
Proof.
  intros Hconf Hf Hbuild run n_entries n_returns n_shapes n_alloc.
  subst run n_entries n_returns n_shapes n_alloc.
  destruct (forward_tail k B w f cr w1 Hconf Hf Hbuild) as (tail & Hevs & Hkind).
  set (populate := CallPopulateResultBuffers (return_blobs f)
                     (ResultAllocationIndices (executable cr))) in *.
  pose proof (launch_cases k (launch_ctx_of k) (executable cr) (entry_blobs f)
                (xla_input_shapes cr) (return_blobs f) (xla_output_shape cr)
                (blocking_policy (device_type k)) (logged populate w1)) as Hcases.
  pose proof (launch_fatal_kinds k (launch_ctx_of k) (executable cr) (entry_blobs f)
                (xla_input_shapes cr) (return_blobs f) (xla_output_shape cr)
                (blocking_policy (device_type k)) (logged populate w1)) as Hkinds.
  cbv zeta in Hcases.
  assert (Hnorun : forall tl,
            (forall a o, CallRunAsync a o ∉ tl) ->
            forall a o,
              CallRunAsync a o ∉ CallAliasMutableInputsAndOutputs
                :: build_events k f w (signature_of k B) ++ tl).
  { intros tl Htl a o Hev.
    change (CallRunAsync a o ∈ (CallAliasMutableInputsAndOutputs
              :: build_events k f w (signature_of k B)) ++ tl) in Hev.
    apply elem_of_app in Hev as [Hev|Hev]; [|by apply (Htl a o)].
    apply build_events_not_launch in Hev. done. }
  rewrite Hevs. clear Hevs.
  destruct Hkind as [(Hn & Htail & Hrun)|[(Hn & Htail & Hrun & Hfatal)
                    |(Hn & Hrun & Hlen & Hret & arguments & Htail)]];
    rewrite Htail; clear Htail.
  - rewrite Hrun. split; [|split; [|split; [|split; [|split; [|split]]]]];
      try done; try congruence.
    intros _. split; [done|].
    apply Hnorun. intros a o Hev. by apply not_elem_of_nil in Hev.
  - split; [|split; [|split; [|split; [|split; [|split]]]]].
    + intros _. split; [done|]. apply Hnorun. intros a o Hev.
      apply list_elem_of_singleton in Hev. subst populate. discriminate.
    + congruence.
    + intros _ Hne. rewrite Hrun.
      rewrite (proj2 (Nat.eqb_neq _ _) Hne) in Hcases. simpl in Hcases.
      by rewrite Hcases.
    + intros _ Heq Hzero. rewrite Hrun.
      rewrite (proj2 (Nat.eqb_eq _ _) Heq), Hzero in Hcases. simpl in Hcases.
      by rewrite Hcases.
    + intros _ Hbad. rewrite Hrun in Hbad. by apply Hkinds in Hbad.
    + intros Heq Hbad. rewrite Hrun in Hbad. by apply Hkinds in Hbad.
    + intros Hpos Hbad. rewrite Hrun in Hbad. apply Hkinds in Hbad as [_ Hnil].
      rewrite Hnil in Hpos. done.
  - assert (Hpos : length (return_blobs f) <> 0%nat)
      by (destruct (return_blobs f); done).
    split; [|split; [|split; [|split; [|split; [|split]]]]].
    + intros [?|[?|?]]; congruence.
    + congruence.
    + done.
    + done.
    + intros _ Hbad. rewrite Hrun in Hbad. by apply Hkinds in Hbad.
    + intros Heq Hbad. rewrite Hrun in Hbad. by apply Hkinds in Hbad.
    + intros _ Hbad. rewrite Hrun in Hbad. apply Hkinds in Hbad as [_ Hnil].
      done.
Qed.

Lemma size_mismatches_abort_before_the_run_example :
  let k := Demo.kernel_with kCPU Demo.short_artifact in
  let run := ForwardDataContent k Demo.BnInOp2Blob Demo.fresh_world in
  length (ResultAllocationIndices (executable Demo.short_artifact))
    <> length (return_blobs Demo.resolved_frame) /\
  run.1 = Fatal AllocationIndicesMismatch /\
  is_fatal run.1 = true /\
  forall arguments options,
    CallRunAsync arguments options ∉ events_since Demo.fresh_world run.2.
Proof.
  intros k run. subst k run.
  pose proof (size_mismatches_abort_before_the_run
                (Demo.kernel_with kCPU Demo.short_artifact) Demo.BnInOp2Blob
                Demo.fresh_world Demo.resolved_frame Demo.short_artifact
                (BuildLocalExecutable (Demo.kernel_with kCPU Demo.short_artifact)
                   Demo.ctx Demo.entries Demo.returns ["a"; "b"; "c"]%string
                   ["out"; "b_out"]%string (aliases Demo.resolved_frame) None
                   (logged CallAliasMutableInputsAndOutputs Demo.fresh_world)).2
                eq_refl eq_refl eq_refl) as H.
  cbv zeta in H. destruct H as (Hall & Halloc & _).
  assert (Hne : length (ResultAllocationIndices (executable Demo.short_artifact))
                <> length (return_blobs Demo.resolved_frame)) by discriminate.
  split; [exact Hne|]. split; [exact (Halloc Hne)|].
  exact (Hall (or_intror (or_intror Hne))).
Defined.

(** C8, as the code has it. An invocation without a launch configuration
    calls nothing. Any other invocation first resolves the aliases, then
    looks the signature up in the cache; the compiler is called, and its
    artifact recorded and looked up again, exactly when the lookup
    missed; the calls that follow are those of the launch phase. *)
Theorem alias_resolution_precedes_the_cache_lookup k B w :
  let run := ForwardDataContent k B w in
  let sig := signature_of k B in
  (has_xla_launch_conf k = false -> events_since w run.2 = []) /\
  (has_xla_launch_conf k = true ->
   exists f tail,
     AliasMutableInputsAndOutputs (launch_attr k) (initial_frame k B) = Ok f /\
     events_since w run.2 =
       CallAliasMutableInputsAndOutputs
       :: CallGetRecord sig
       :: match cache_get (the_cache w) sig with
          | Some _ => []
          | None =>
              [CallCompile (entry_blobs f) (return_blobs f) (entry_blob_names f)
                 (return_blob_names f) (aliases f);
               CallRecord sig;
               CallGetRecord sig]
          end ++ tail /\
     Forall (fun ev => is_launch_event ev = true) tail).
Proof.
  intros run sig. subst run sig. split.
  - intros Hconf. rewrite (forward_without_conf k B w Hconf). simpl.
    apply events_since_same.
  - intros Hconf.
    destruct (forward_reaches_the_launch k B w Hconf) as (f & cr & w1 & Hf & Hbuild).
    destruct (forward_tail k B w f cr w1 Hconf Hf Hbuild) as (tail & Hevs & Hkind).
    exists f, tail. split; [done|]. split; [exact Hevs|].
    destruct Hkind as [(_ & -> & _)|[(_ & -> & _)|(_ & _ & _ & _ & arguments & ->)]].
    + constructor.
    + by repeat constructor.
    + destruct (blocking_policy (device_type k)); by repeat constructor.
Qed.

Lemma alias_resolution_precedes_the_cache_lookup_example :
  let k := Demo.kernel kCPU in
  let sig := signature_of k Demo.BnInOp2Blob in
  has_xla_launch_conf k = true /\
  exists f tail,
    AliasMutableInputsAndOutputs (launch_attr k)
      (initial_frame k Demo.BnInOp2Blob) = Ok f /\
    events_since Demo.warm_world
      (ForwardDataContent k Demo.BnInOp2Blob Demo.warm_world).2 =
      CallAliasMutableInputsAndOutputs
      :: CallGetRecord sig
      :: match cache_get (the_cache Demo.warm_world) sig with
         | Some _ => []
         | None =>
             [CallCompile (entry_blobs f) (return_blobs f) (entry_blob_names f)
                (return_blob_names f) (aliases f);
              CallRecord sig;
              CallGetRecord sig]
         end ++ tail /\
    Forall (fun ev => is_launch_event ev = true) tail.
Proof.
  intros k sig. subst k sig. split; [reflexivity|].
  exact (proj2 (alias_resolution_precedes_the_cache_lookup (Demo.kernel kCPU)
                  Demo.BnInOp2Blob Demo.warm_world) eq_refl).
Defined.

(** C8, as the design document words it, fails: on a cache hit the
    aliases are resolved all the same, and before the cache is looked
    up. *)
Lemma alias_resolution_runs_on_a_cache_hit :
  let k := Demo.kernel kCPU in
  let sig := signature_of k Demo.BnInOp2Blob in
  let run := ForwardDataContent k Demo.BnInOp2Blob Demo.warm_world in
  cache_get (the_cache Demo.warm_world) sig = Some Demo.artifact /\
  run.1 = Ok tt /\
  events_since Demo.warm_world run.2 =
    [CallAliasMutableInputsAndOutputs;
     CallGetRecord sig;
     CallPopulateResultBuffers Demo.returns [0; 1];
     CallRunAsync Demo.arguments Demo.options;
     CallBlockHostUntilDone 7] /\
  ~ (is_Some (cache_get (the_cache Demo.warm_world) sig) ->
     CallAliasMutableInputsAndOutputs ∉ events_since Demo.warm_world run.2).
Proof.
  intros k sig run. subst k sig run.
  assert (Hevs : events_since Demo.warm_world
                   (ForwardDataContent (Demo.kernel kCPU) Demo.BnInOp2Blob
                      Demo.warm_world).2 =
                 [CallAliasMutableInputsAndOutputs;
                  CallGetRecord (signature_of (Demo.kernel kCPU) Demo.BnInOp2Blob);
                  CallPopulateResultBuffers Demo.returns [0; 1];
                  CallRunAsync Demo.arguments Demo.options;
                  CallBlockHostUntilDone 7]) by (vm_compute; reflexivity).
  split; [vm_compute; reflexivity|]. split; [vm_compute; reflexivity|].
  split; [exact Hevs|].
  intros Hclaim. apply Hclaim.
  - eexists. vm_compute. reflexivity.
  - rewrite Hevs. left.
Qed.

(** * Further properties of the launch pipeline *)

(** ** BuildLocalExecutable and the cache *)

(** Whatever happens, the cache object exists afterwards. *)
Lemma build_creates_the_cache k ctx entries returns entry_names return_names
    alias_entries cr w :
  is_Some (compilation_cache_
             (BuildLocalExecutable k ctx entries returns entry_names return_names
                alias_entries cr w).2).
Proof.
  unfold BuildLocalExecutable, bind, ensure_cache, GetRecord, Record_,
    call_Compile, CHECK, fatal, ret, bind, log, logged, force_compile.
  destruct w as [[c|] t m];
    cbn [the_cache compilation_cache_ trace device_memory default negb fst snd];
    destruct (cache_get _ _) as [hit|];
    [|destruct (has_xla_launch_conf k)| |destruct (has_xla_launch_conf k)];
    cbn [the_cache compilation_cache_ trace device_memory default from_option id
         fst snd]; by eexists.
Qed.

(** X1. On a cache hit [BuildLocalExecutable] hands back the cached
    artifact after the one lookup: it calls neither the compiler nor
    [Record], does not reach the check on the launch configuration, and
    leaves the cache contents and device memory as they were, whatever
    [*compile_result] held on entry. *)
Theorem build_hit_skips_the_compiler k ctx entries returns entry_names
    return_names alias_entries cr w hit :
  let sig := ComputeSignature (builder_name ctx) (device_ordinal ctx) entries in
  cache_get (the_cache w) sig = Some hit ->
  exists w',
    BuildLocalExecutable k ctx entries returns entry_names return_names
      alias_entries cr w = (Ok (Some hit), w') /\
    events_since w w' = [CallGetRecord sig] /\
    the_cache w' = the_cache w /\
    device_memory w' = device_memory w.
Proof.
  intros sig Hhit.
  pose proof (build_cases k ctx entries returns entry_names return_names
                alias_entries cr w) as Hcases.
  cbv zeta in Hcases. fold sig in Hcases. rewrite Hhit in Hcases.
  destruct Hcases as (w' & Hrun & Hc & Ht & Hm).
  exists w'. repeat split; try done. by apply events_since_app.
Qed.

Lemma build_hit_skips_the_compiler_example :
  let sig := signature_of (Demo.kernel kCPU) Demo.BnInOp2Blob in
  has_xla_launch_conf Cases.kernel_without_conf = false /\
  cache_get (the_cache Demo.warm_world) sig = Some Demo.artifact /\
  exists w',
    BuildLocalExecutable Cases.kernel_without_conf Demo.ctx Demo.entries
      Demo.returns ["a"; "b"; "c"]%string ["out"; "b_out"]%string
      (aliases Demo.resolved_frame) None Demo.warm_world
      = (Ok (Some Demo.artifact), w') /\
    events_since Demo.warm_world w' = [CallGetRecord sig] /\
    the_cache w' = the_cache Demo.warm_world /\
    device_memory w' = device_memory Demo.warm_world.
Proof.
  intros sig. split; [reflexivity|].
  assert (Hhit : cache_get (the_cache Demo.warm_world) sig = Some Demo.artifact)
    by (vm_compute; reflexivity).
  split; [exact Hhit|].
  exact (build_hit_skips_the_compiler Cases.kernel_without_conf Demo.ctx
           Demo.entries Demo.returns ["a"; "b"; "c"]%string
           ["out"; "b_out"]%string (aliases Demo.resolved_frame) None
           Demo.warm_world Demo.artifact Hhit).
Defined.

(** X2. On a cache miss of a kernel without a launch
    configuration [BuildLocalExecutable] aborts on the check of line 37
    after the one lookup: the compiler is not called and nothing is
    recorded, yet the cache object has been created. *)
Theorem build_miss_needs_the_launch_conf k ctx entries returns entry_names
    return_names alias_entries cr w :
  let sig := ComputeSignature (builder_name ctx) (device_ordinal ctx) entries in
  cache_get (the_cache w) sig = None ->
  has_xla_launch_conf k = false ->
  exists w',
    BuildLocalExecutable k ctx entries returns entry_names return_names
      alias_entries cr w = (Fatal BuildNeedsLaunchConf, w') /\
    events_since w w' = [CallGetRecord sig] /\
    is_Some (compilation_cache_ w') /\
    the_cache w' = the_cache w /\
    cache_get (the_cache w') sig = None /\
    device_memory w' = device_memory w.
Proof.
  intros sig Hmiss Hconf.
  pose proof (build_cases k ctx entries returns entry_names return_names
                alias_entries cr w) as Hcases.
  pose proof (build_creates_the_cache k ctx entries returns entry_names
                return_names alias_entries cr w) as Hsome.
  cbv zeta in Hcases. fold sig in Hcases. rewrite Hmiss, Hconf in Hcases.
  destruct Hcases as (w' & Hrun & Hc & Ht & Hm).
  rewrite Hrun in Hsome. simpl in Hsome.
  exists w'. repeat split; try done; [by apply events_since_app|].
  by rewrite Hc.
Qed.

Lemma build_miss_needs_the_launch_conf_example :
  let sig := signature_of (Demo.kernel kCPU) Demo.BnInOp2Blob in
  exists w',
    BuildLocalExecutable Cases.kernel_without_conf Demo.ctx Demo.entries
      Demo.returns ["a"; "b"; "c"]%string ["out"; "b_out"]%string
      (aliases Demo.resolved_frame) None Demo.fresh_world
      = (Fatal BuildNeedsLaunchConf, w') /\
    events_since Demo.fresh_world w' = [CallGetRecord sig] /\
    is_Some (compilation_cache_ w') /\
    the_cache w' = the_cache Demo.fresh_world /\
    cache_get (the_cache w') sig = None /\
    device_memory w' = device_memory Demo.fresh_world.
Proof.
  intros sig.
  exact (build_miss_needs_the_launch_conf Cases.kernel_without_conf Demo.ctx
           Demo.entries Demo.returns ["a"; "b"; "c"]%string
           ["out"; "b_out"]%string (aliases Demo.resolved_frame) None
           Demo.fresh_world eq_refl eq_refl).
Defined.

(** X3. [BuildLocalExecutable] never evicts: whatever its
    outcome, the cache object exists afterwards, every entry the cache
    held is still there with the same artifact, the entries of other
    signatures are exactly as before, and device memory is untouched. *)
Theorem build_keeps_the_cache_entries k ctx entries returns entry_names
    return_names alias_entries cr w :
  let sig := ComputeSignature (builder_name ctx) (device_ordinal ctx) entries in
  let w' := (BuildLocalExecutable k ctx entries returns entry_names return_names
               alias_entries cr w).2 in
  is_Some (compilation_cache_ w') /\
  (forall sig' r, cache_get (the_cache w) sig' = Some r ->
     cache_get (the_cache w') sig' = Some r) /\
  (forall sig', sig' <> sig ->
     cache_get (the_cache w') sig' = cache_get (the_cache w) sig') /\
  device_memory w' = device_memory w.
Proof.
  intros sig w'. subst w'.
  pose proof (build_cases k ctx entries returns entry_names return_names
                alias_entries cr w) as Hcases.
  pose proof (build_creates_the_cache k ctx entries returns entry_names
                return_names alias_entries cr w) as Hsome.
  cbv zeta in Hcases. fold sig in Hcases.
  split; [done|].
  destruct (cache_get (the_cache w) sig) as [hit|] eqn:Hget;
    [|destruct (has_xla_launch_conf k)];
    destruct Hcases as (w1 & Hrun & Hc & _ & Hm); rewrite Hrun; simpl;
    rewrite Hc; repeat split; try done.
  - intros sig' r Hr. unfold cache_get, cache_record in *.
    destruct (decide (sig' = sig)) as [->|Hne]; [congruence|].
    by rewrite lookup_insert_ne.
  - intros sig' Hne. unfold cache_get, cache_record.
    by rewrite lookup_insert_ne.
Qed.

(** ** The world an invocation leaves *)

(** [LaunchExecutable] leaves the world as it found it, or as the run
    left it. *)
Lemma launch_world k ctx exe entries shapes returns out_shape block w :
  let run := LaunchExecutable k ctx exe entries shapes returns out_shape block w in
  (run.2 = w /\ is_fatal run.1 = true) \/
  (exists arguments,
     marshal_arguments ctx entries shapes returns = Ok arguments /\
     run.2 = launched_world k ctx exe arguments block w).
Proof.
  intros run. subst run.
  destruct (launch_inversion k ctx exe entries shapes returns out_shape block w)
    as [(Hw & Hfatal & _)|(arguments & _ & _ & Hm & Hrun)]; [by left|].
  right. exists arguments. by rewrite Hrun.
Qed.

(** The world after alias resolution and [BuildLocalExecutable]. *)
Lemma build_after_alias k B w f cr w1 :
  has_xla_launch_conf k = true ->
  AliasMutableInputsAndOutputs (launch_attr k) (initial_frame k B) = Ok f ->
  BuildLocalExecutable k (launch_ctx_of k) (entry_blobs f) (return_blobs f)
    (entry_blob_names f) (return_blob_names f) (aliases f) None
    (logged CallAliasMutableInputsAndOutputs w) = (Ok (Some cr), w1) ->
  device_memory w1 = device_memory w /\
  cache_get (the_cache w1) (signature_of k B) = Some cr /\
  the_cache w1 =
    match cache_get (the_cache w) (signature_of k B) with
    | Some _ => the_cache w
    | None => cache_record (the_cache w) (signature_of k B) cr
    end /\
  match cache_get (the_cache w) (signature_of k B) with
  | Some hit => cr = hit
  | None => cr = Compile k (launch_ctx_of k) (entry_blobs f) (return_blobs f)
                   (entry_blob_names f) (return_blob_names f) (aliases f)
  end.
Proof.
  intros Hconf Hf Hbuild.
  destruct (alias_extends _ _ _ Hf) as (Hentries & _).
  pose proof (build_cases k (launch_ctx_of k) (entry_blobs f) (return_blobs f)
                (entry_blob_names f) (return_blob_names f) (aliases f) None
                (logged CallAliasMutableInputsAndOutputs w)) as Hcases.
  cbv zeta in Hcases. rewrite Hconf, Hbuild in Hcases.
  assert (Hsig : ComputeSignature (builder_name (launch_ctx_of k))
                   (device_ordinal (launch_ctx_of k)) (entry_blobs f)
                 = signature_of k B).
  { unfold signature_of. by rewrite Hentries. }
  rewrite Hsig in Hcases.
  change (the_cache (logged CallAliasMutableInputsAndOutputs w))
    with (the_cache w) in Hcases.
  destruct (cache_get (the_cache w) (signature_of k B)) as [hit|] eqn:Hget.
  - destruct Hcases as (w' & Hrun & Hc & _ & Hm). inversion Hrun; subst.
    rewrite Hc. done.
  - destruct Hcases as (w' & Hrun & Hc & _ & Hm). inversion Hrun; subst.
    rewrite Hc. repeat split; try done. apply cache_get_record.
Qed.

(** An invocation with a launch configuration, step by step. *)
Lemma forward_steps k B w :
  has_xla_launch_conf k = true ->
  exists f cr w1,
    AliasMutableInputsAndOutputs (launch_attr k) (initial_frame k B) = Ok f /\
    BuildLocalExecutable k (launch_ctx_of k) (entry_blobs f) (return_blobs f)
      (entry_blob_names f) (return_blob_names f) (aliases f) None
      (logged CallAliasMutableInputsAndOutputs w) = (Ok (Some cr), w1) /\
    trace w1 = trace w ++ CallAliasMutableInputsAndOutputs
                 :: build_events k f w (signature_of k B) /\
    ForwardDataContent k B w =
    if (length (return_blobs f) =? length (ResultAllocationIndices (executable cr)))%nat
    then LaunchExecutable k (launch_ctx_of k) (executable cr) (entry_blobs f)
           (xla_input_shapes cr) (return_blobs f) (xla_output_shape cr)
           (blocking_policy (device_type k))
           (logged (CallPopulateResultBuffers (return_blobs f)
                      (ResultAllocationIndices (executable cr))) w1)
    else (Fatal AllocationIndicesMismatch, w1).
Proof.
  intros Hconf. pose proof (forward_cases k B w) as Hcases.
  cbv zeta in Hcases. by rewrite Hconf in Hcases.
Qed.

(** The cache after an invocation holds the artifact of its signature,
    and is otherwise the cache [BuildLocalExecutable] left. *)
Lemma forward_cache k B w :
  has_xla_launch_conf k = true ->
  exists f cr,
    AliasMutableInputsAndOutputs (launch_attr k) (initial_frame k B) = Ok f /\
    cache_get (the_cache (ForwardDataContent k B w).2) (signature_of k B) = Some cr /\
    the_cache (ForwardDataContent k B w).2 =
      match cache_get (the_cache w) (signature_of k B) with
      | Some _ => the_cache w
      | None => cache_record (the_cache w) (signature_of k B) cr
      end.
Proof.
  intros Hconf.
  destruct (forward_steps k B w Hconf) as (f & cr & w1 & Hf & Hbuild & _ & Hrun).
  destruct (build_after_alias k B w f cr w1 Hconf Hf Hbuild) as (_ & Hget & Hc & _).
  exists f, cr. split; [done|].
  assert (Hsame : the_cache (ForwardDataContent k B w).2 = the_cache w1).
  { rewrite Hrun. destruct (_ =? _)%nat; [|done].
    match goal with |- context [LaunchExecutable ?a ?b ?c ?d ?e ?g ?h ?i ?j] =>
      destruct (launch_world a b c d e g h i j) as [[-> _]|(args & _ & ->)] end;
      done. }
  by rewrite Hsame.
Qed.

(** X4. After an invocation of a kernel with a launch
    configuration, whatever its outcome, the cache holds an artifact for
    its signature; a following invocation on blobs of the same signature
    calls neither the compiler nor [Record] and leaves the cache
    contents as they are. *)
Theorem second_invocation_reuses_the_artifact k B B' w :
  has_xla_launch_conf k = true ->
  signature_of k B' = signature_of k B ->
  let w1 := (ForwardDataContent k B w).2 in
  let w2 := (ForwardDataContent k B' w1).2 in
  is_Some (cache_get (the_cache w1) (signature_of k B)) /\
  (forall e r en rn al, CallCompile e r en rn al ∉ events_since w1 w2) /\
  (forall sig, CallRecord sig ∉ events_since w1 w2) /\
  the_cache w2 = the_cache w1.
Proof.
  intros Hconf Hsig w1 w2. subst w2.
  destruct (forward_cache k B w Hconf) as (f & cr & _ & Hget & _).
  fold w1 in Hget. split; [by eexists|].
  destruct (forward_cache k B' w1 Hconf) as (f' & cr' & Hf' & _ & Hc').
  rewrite Hsig, Hget in Hc'.
  destruct (forward_steps k B' w1 Hconf) as (f2 & cr2 & w3 & Hf2 & Hbuild & _).
  destruct (forward_tail k B' w1 f2 cr2 w3 Hconf Hf2 Hbuild) as (tail & Hevs & Hkind).
  rewrite Hevs. unfold build_events. rewrite Hsig, Hget.
  assert (Htail : forall ev, ev ∈ tail -> is_launch_event ev = true).
  { intros ev Hev.
    destruct Hkind as [(_ & -> & _)|[(_ & -> & _)|(_ & _ & _ & _ & a & ->)]].
    - by apply not_elem_of_nil in Hev.
    - apply list_elem_of_singleton in Hev. by subst.
    - destruct (blocking_policy (device_type k));
        repeat (apply elem_of_cons in Hev as [->|Hev]; [done|]);
        by apply not_elem_of_nil in Hev. }
  split; [|split; [|done]].
  - intros e r en rn al Hev.
    repeat (apply elem_of_cons in Hev as [Hev|Hev]; [discriminate|]).
    by apply Htail in Hev.
  - intros sig Hev.
    repeat (apply elem_of_cons in Hev as [Hev|Hev]; [discriminate|]).
    by apply Htail in Hev.
Qed.

Lemma second_invocation_reuses_the_artifact_example :
  let k := Demo.kernel kCPU in
  let w1 := (ForwardDataContent k Demo.BnInOp2Blob Demo.fresh_world).2 in
  let w2 := (ForwardDataContent k Cases.BnInOp2Blob_elsewhere w1).2 in
  signature_of k Cases.BnInOp2Blob_elsewhere = signature_of k Demo.BnInOp2Blob /\
  is_Some (cache_get (the_cache w1) (signature_of k Demo.BnInOp2Blob)) /\
  (forall e r en rn al, CallCompile e r en rn al ∉ events_since w1 w2) /\
  (forall sig, CallRecord sig ∉ events_since w1 w2) /\
  the_cache w2 = the_cache w1.
Proof.
  intros k w1 w2. split; [reflexivity|].
  exact (second_invocation_reuses_the_artifact (Demo.kernel kCPU)
           Demo.BnInOp2Blob Cases.BnInOp2Blob_elsewhere Demo.fresh_world
           eq_refl eq_refl).
Defined.

(** X6. A fatal invocation fails on the launch-configuration check
    of line 171 exactly when the kernel has none, and otherwise on one of
    the seven checks of the launch phase. The size check of alias
    resolution (line 140), the configuration check of line 37, the check
    on a null artifact (line 184) and an out-of-range vector index never
    occur. *)
Theorem invocation_fatal_kinds k B w e :
  (ForwardDataContent k B w).1 = Fatal e ->
  match e with
  | ForwardNeedsLaunchConf => has_xla_launch_conf k = false
  | AllocationIndicesMismatch | InputShapesSizeMismatch | NeedOneRealOutput
  | TupleInputNotAllowed | RunFailed | ResultShapeNotTuple
  | ResultBufferMismatch => has_xla_launch_conf k = true
  | AliasNamesSizeMismatch | BuildNeedsLaunchConf | ExecutableBuiltFailed
  | VectorIndexOutOfRange => False
  end.
Proof.
  intros Hrun.
  destruct (has_xla_launch_conf k) eqn:Hconf.
  2: { rewrite (forward_without_conf k B w Hconf) in Hrun.
       inversion Hrun; subst. done. }
  destruct (forward_steps k B w Hconf) as (f & cr & w1 & _ & _ & _ & Hsteps).
  rewrite Hsteps in Hrun. clear Hsteps.
  destruct (_ =? _)%nat; [|inversion Hrun; subst; done].
  apply launch_fatal_kinds in Hrun. by destruct e.
Qed.

Lemma invocation_fatal_kinds_example :
  (ForwardDataContent (Demo.kernel_with kCPU Demo.short_artifact)
     Demo.BnInOp2Blob Demo.fresh_world).1 = Fatal AllocationIndicesMismatch /\
  has_xla_launch_conf (Demo.kernel_with kCPU Demo.short_artifact) = true.
Proof.
  assert (Hrun : (ForwardDataContent (Demo.kernel_with kCPU Demo.short_artifact)
                    Demo.BnInOp2Blob Demo.fresh_world).1
                 = Fatal AllocationIndicesMismatch) by (vm_compute; reflexivity).
  split; [exact Hrun|].
  exact (invocation_fatal_kinds (Demo.kernel_with kCPU Demo.short_artifact)
           Demo.BnInOp2Blob Demo.fresh_world AllocationIndicesMismatch Hrun).
Defined.

(** X7. When the run reports an error, [LaunchExecutable] is
    fatal with [RunFailed], but only after the lambda has finished: with
    blocking asked for, the stream is still waited on, and device memory
    is as the failed run left it. *)
Theorem failed_run_is_fatal_after_the_wait k ctx exe entries shapes returns
    out_shape block w arguments :
  length entries = length shapes -> returns <> [] ->
  marshal_arguments ctx entries shapes returns = Ok arguments ->
  run_status k ctx exe arguments w = StatusError ->
  let run := LaunchExecutable k ctx exe entries shapes returns out_shape block w in
  run.1 = Fatal RunFailed /\
  events_since w run.2 =
    CallRunAsync arguments (run_options_of k ctx)
      :: (if block then [CallBlockHostUntilDone (stream ctx)] else []) /\
  device_memory run.2 =
    (RunAsync exe arguments (run_options_of k ctx) (device_memory w)).2.
Proof.
  intros Hlen Hret Hm Hstatus run. subst run.
  rewrite (launch_after_checks _ _ _ _ _ _ _ _ _ _ Hlen Hret Hm), Hstatus.
  simpl. split; [done|]. split; [|done]. apply events_since_launched.
Qed.

Lemma failed_run_is_fatal_after_the_wait_example :
  let run :=
    LaunchExecutable (Demo.kernel kCPU) Demo.ctx Cases.failing_exe Demo.entries
      Demo.input_shapes Demo.returns (xla_output_shape Demo.artifact) true
      Demo.fresh_world in
  run.1 = Fatal RunFailed /\
  events_since Demo.fresh_world run.2 =
    [CallRunAsync Demo.arguments Demo.options; CallBlockHostUntilDone 7] /\
  device_memory run.2 = device_memory Demo.fresh_world.
Proof.
  intros run. subst run.
  apply (failed_run_is_fatal_after_the_wait (Demo.kernel kCPU) Demo.ctx
           Cases.failing_exe Demo.entries Demo.input_shapes Demo.returns
           (xla_output_shape Demo.artifact) true Demo.fresh_world Demo.arguments);
    reflexivity || discriminate.
Defined.

(** X8. For the frame and the artifact of an invocation, the
    invocation returns exactly when the allocation indices are as many
    as the return tensors, the entries as many as the input shapes, there
    is a return tensor, the arguments can be marshalled, and the run
    returns a tuple in which every non-null buffer is the caller's
    output buffer of its slot. *)
Theorem invocation_succeeds_exactly_when k B w f cr w1 :
  has_xla_launch_conf k = true ->
  AliasMutableInputsAndOutputs (launch_attr k) (initial_frame k B) = Ok f ->
  BuildLocalExecutable k (launch_ctx_of k) (entry_blobs f) (return_blobs f)
    (entry_blob_names f) (return_blob_names f) (aliases f) None
    (logged CallAliasMutableInputsAndOutputs w) = (Ok (Some cr), w1) ->
  let ctx := launch_ctx_of k in
  (ForwardDataContent k B w).1 = Ok tt <->
  length (ResultAllocationIndices (executable cr)) = length (return_blobs f) /\
  length (entry_blobs f) = length (xla_input_shapes cr) /\
  return_blobs f <> [] /\
  exists arguments run_result,
    marshal_arguments ctx (entry_blobs f) (xla_input_shapes cr) (return_blobs f)
      = Ok arguments /\
    run_status k ctx (executable cr) arguments w = StatusOk run_result /\
    IsTuple (result_host_shape run_result) = true /\
    forall slot, buffer_reused (return_blobs f) run_result slot.
Proof.
  intros Hconf Hf Hbuild ctx.
  destruct (forward_steps k B w Hconf) as (f' & cr' & w1' & Hf' & Hbuild' & _ & Hrun).
  rewrite Hf in Hf'. inversion Hf'; subst f'. clear Hf'.
  rewrite Hbuild in Hbuild'. inversion Hbuild'; subst cr' w1'. clear Hbuild'.
  destruct (build_after_alias k B w f cr w1 Hconf Hf Hbuild) as (Hm & _).
  rewrite Hrun. clear Hrun. fold ctx.
  set (populate := CallPopulateResultBuffers (return_blobs f)
                     (ResultAllocationIndices (executable cr))).
  assert (Hstatus : forall a,
            run_status k ctx (executable cr) a (logged populate w1) =
            run_status k ctx (executable cr) a w).
  { intros a. unfold run_status. simpl. by rewrite Hm. }
  destruct (Nat.eqb_spec (length (return_blobs f))
              (length (ResultAllocationIndices (executable cr)))) as [Hn|Hn].
  2: { simpl. split; [done|]. intros (Hn' & _). congruence. }
  split.
  - intros Hok.
    destruct (launch_inversion k ctx (executable cr) (entry_blobs f)
                (xla_input_shapes cr) (return_blobs f) (xla_output_shape cr)
                (blocking_policy (device_type k)) (logged populate w1))
      as [(_ & Hfatal & _)|(a & Hlen & Hret & Hma & Hrun)].
    { rewrite Hok in Hfatal. done. }
    rewrite Hrun in Hok. simpl in Hok. rewrite Hstatus in Hok.
    split; [done|]. split; [done|]. split; [done|].
    exists a. destruct (run_status k ctx (executable cr) a w) as [rr|]; [|done].
    exists rr. destruct (IsTuple (result_host_shape rr)); [|done].
    repeat split; try done. by apply translate_results_reused.
  - intros (_ & Hlen & Hret & a & rr & Hma & Hst & Htuple & Hall).
    rewrite (launch_after_checks _ _ _ _ _ _ _ _ _ _ Hlen Hret Hma).
    simpl. rewrite Hstatus, Hst, Htuple. by apply translate_results_reused.
Qed.

Lemma invocation_succeeds_exactly_when_example :
  (ForwardDataContent (Demo.kernel kGPU) Demo.BnInOp2Blob Demo.fresh_world).1
    = Ok tt /\
  exists arguments run_result,
    marshal_arguments Demo.ctx Demo.entries Demo.input_shapes Demo.returns
      = Ok arguments /\
    run_status (Demo.kernel kGPU) Demo.ctx Demo.exe arguments Demo.fresh_world
      = StatusOk run_result /\
    IsTuple (result_host_shape run_result) = true /\
    forall slot, buffer_reused Demo.returns run_result slot.
Proof.
  assert (Hok : (ForwardDataContent (Demo.kernel kGPU) Demo.BnInOp2Blob
                   Demo.fresh_world).1 = Ok tt) by (vm_compute; reflexivity).
  split; [exact Hok|].
  exact (proj2 (proj2 (proj2
           (proj1 (invocation_succeeds_exactly_when (Demo.kernel kGPU)
                     Demo.BnInOp2Blob Demo.fresh_world Demo.resolved_frame
                     Demo.artifact
                     (BuildLocalExecutable (Demo.kernel kGPU) Demo.ctx
                        Demo.entries Demo.returns ["a"; "b"; "c"]%string
                        ["out"; "b_out"]%string (aliases Demo.resolved_frame)
                        None
                        (logged CallAliasMutableInputsAndOutputs
                           Demo.fresh_world)).2
                     eq_refl eq_refl eq_refl) Hok)))).
Defined.

(** X9. Every argument vector the executable is run on has one
    slot per input shape, none of them left at the null pointer it was
    created with; the buffer of slot [i] has input shape [i] as host and
    as device shape, the client's platform and the context's device
    ordinal; the options are those built from the launch context. *)
Theorem no_argument_is_left_null k ctx exe entries shapes returns out_shape
    block w :
  let run := LaunchExecutable k ctx exe entries shapes returns out_shape block w in
  forall arguments options,
    CallRunAsync arguments options ∈ events_since w run.2 ->
    options = run_options_of k ctx /\
    length arguments = length shapes /\
    forall i shape, shapes !! i = Some shape ->
      exists buf,
        arguments !! i = Some (Some buf) /\
        on_host_shape buf = shape /\
        on_device_shape buf = shape /\
        buffer_platform buf = client_platform (client ctx) /\
        buffer_device_ordinal buf = device_ordinal ctx.
Proof.
  intros run arguments options Hev. subst run.
  destruct (launch_inversion k ctx exe entries shapes returns out_shape block w)
    as [(Hw & _)|(arguments' & Hlen & _ & Hm & Hrun)].
  { rewrite Hw, events_since_same in Hev. by apply not_elem_of_nil in Hev. }
  rewrite Hrun in Hev. simpl in Hev. rewrite events_since_launched in Hev.
  assert (arguments = arguments' /\ options = run_options_of k ctx) as [-> ->].
  { apply elem_of_cons in Hev as [Hev|Hev]; [by inversion Hev|].
    destruct block; [|by apply not_elem_of_nil in Hev].
    apply list_elem_of_singleton in Hev. discriminate. }
  apply marshal_arguments_ok in Hm as [Hlen' Hslots].
  split; [done|]. split; [done|]. intros i shape Hshape.
  destruct (Hslots i) as (buf & Hbuf & Hgood); [by apply lookup_lt_Some in Hshape|].
  exists buf. split; [done|].
  destruct Hgood as (shape' & entry & Hshape' & _ & _ & Hh & Hd & Hp & Ho & _).
  rewrite Hshape in Hshape'. inversion Hshape'; subst. done.
Qed.

Lemma no_argument_is_left_null_example :
  let run :=
    LaunchExecutable (Demo.kernel kCPU) Demo.ctx Demo.exe Demo.entries
      Demo.input_shapes Demo.returns (xla_output_shape Demo.artifact) true
      Demo.fresh_world in
  CallRunAsync Demo.arguments Demo.options ∈ events_since Demo.fresh_world run.2 /\
  Demo.options = run_options_of (Demo.kernel kCPU) Demo.ctx /\
  length Demo.arguments = length Demo.input_shapes.
Proof.
  intros run. subst run.
  assert (Hev : CallRunAsync Demo.arguments Demo.options
                  ∈ events_since Demo.fresh_world
                      (LaunchExecutable (Demo.kernel kCPU) Demo.ctx Demo.exe
                         Demo.entries Demo.input_shapes Demo.returns
                         (xla_output_shape Demo.artifact) true
                         Demo.fresh_world).2).
  { apply list_elem_of_In. vm_compute. auto. }
  split; [exact Hev|].
  destruct (no_argument_is_left_null (Demo.kernel kCPU) Demo.ctx Demo.exe
              Demo.entries Demo.input_shapes Demo.returns
              (xla_output_shape Demo.artifact) true Demo.fresh_world
              Demo.arguments Demo.options Hev) as (Ho & Hl & _).
  split; [exact Ho|exact Hl].
Defined.

Lemma alias_loop_without_mutable attr idxs f :
  (forall i, i ∈ idxs -> (i < length (entry_blobs f))%nat) ->
  length (entry_blobs f) = length (entry_blob_names f) ->
  (forall n, n ∈ entry_blob_names f -> IsMutableArg attr n = false) ->
  for_each idxs (alias_step attr) f = Ok f.
Proof.
  intros Hin Hlen Hnone. induction idxs as [|i rest IH]; [done|].
  assert (Hi : (i < length (entry_blobs f))%nat) by (apply Hin; left).
  destruct (lookup_lt_is_Some_2 (entry_blobs f) i Hi) as [blob Hblob].
  assert (Hi' : (i < length (entry_blob_names f))%nat) by lia.
  destruct (lookup_lt_is_Some_2 (entry_blob_names f) i Hi') as [name Hname].
  simpl. unfold alias_step at 1. rewrite Hname, Hblob.
  rewrite (Hnone name) by (eapply list_elem_of_lookup_2; eauto).
  apply IH. intros j Hj. apply Hin. by right.
Qed.

(** X10. When no entry name is declared mutable (in particular
    when there is no entry), alias resolution returns the frame exactly
    as it was given. *)
Theorem alias_resolution_without_mutable_arguments attr f :
  length (entry_blobs f) = length (entry_blob_names f) ->
  (forall n, n ∈ entry_blob_names f -> IsMutableArg attr n = false) ->
  AliasMutableInputsAndOutputs attr f = Ok f.
Proof.
  intros Hlen Hnone. unfold AliasMutableInputsAndOutputs, for_range.
  rewrite (proj2 (Nat.eqb_eq _ _) Hlen). simpl.
  apply alias_loop_without_mutable; try done.
  intros i Hi. apply list_elem_of_In, in_seq in Hi. lia.
Qed.

Lemma alias_resolution_without_mutable_arguments_example :
  AliasMutableInputsAndOutputs Cases.nothing_mutable Demo.frame = Ok Demo.frame.
Proof.
  apply (alias_resolution_without_mutable_arguments Cases.nothing_mutable
           Demo.frame); [reflexivity|]. intros n _. reflexivity.
Defined.

(** ** Alias resolution and the size of the vectors *)

(** X11. With as many names as entries and at most [INT_MAX] entries
    (the range of the loop index), and return vectors of any size, alias
    resolution succeeds and extends the return tensors, the return names
    and the aliases by the same number of elements, at most one per
    entry: the [k]-th added alias has as input slot the [k]-th mutable
    entry, as output slot the 32-bit cast of the return count before the
    call plus [k], and sits beside that entry's tensor and output
    name. *)
Theorem alias_resolution_keeps_the_returns_in_step attr f :
  length (entry_blobs f) = length (entry_blob_names f) ->
  Z.of_nat (length (entry_blobs f)) <= INT_MAX ->
  let slots := mutable_slots attr (entry_blob_names f) in
  let pre := length (return_blobs f) in
  exists f',
    AliasMutableInputsAndOutputs attr f = Ok f' /\
    length (return_blobs f') = (pre + length slots)%nat /\
    length (return_blob_names f') =
      (length (return_blob_names f) + length slots)%nat /\
    length (aliases f') = (length (aliases f) + length slots)%nat /\
    (length slots <= length (entry_blobs f))%nat /\
    (forall k i, slots !! k = Some i ->
       (i < length (entry_blobs f))%nat /\
       aliases f' !! (length (aliases f) + k)%nat =
         Some {| output_index := [static_cast_int (Z.of_nat (pre + k))];
                 param_number := Z.of_nat i;
                 param_index := [] |} /\
       return_blobs f' !! (pre + k)%nat = entry_blobs f !! i /\
       return_blob_names f' !! (length (return_blob_names f) + k)%nat =
         OutputArg attr <$> entry_blob_names f !! i).
Proof.
  intros Hlen _ slots pre.
  assert (Hslot : forall i, i ∈ slots ->
            is_Some (entry_blobs f !! i) /\ is_Some (entry_blob_names f !! i)).
  { intros i Hi. apply elem_of_mutable_slots in Hi as (n & Hn & _).
    split; [|eauto]. apply lookup_lt_is_Some_2.
    apply lookup_lt_Some in Hn. lia. }
  destruct (omap_total_lookup (fun i => entry_blobs f !! i) slots) as [Lb Kb];
    [intros i Hi; by apply Hslot|].
  destruct (omap_total_lookup
              (fun i => OutputArg attr <$> entry_blob_names f !! i) slots) as [Ln Kn].
  { intros i Hi. destruct (Hslot i Hi) as [_ [n Hn]]. rewrite Hn. by eexists. }
  eexists. split; [apply (alias_closed_form attr f Hlen)|].
  unfold extend_frame, resolve, extras_of; simpl. fold slots.
  rewrite !length_app, Lb, Ln, length_imap.
  split; [done|]. split; [done|]. split; [done|]. split.
  { unfold slots, mutable_slots.
    etrans; [apply List.filter_length_le|]. rewrite length_seq. lia. }
  intros k i Hk.
  assert (Hi : i ∈ slots) by (eapply list_elem_of_lookup_2; eauto).
  split; [apply lookup_lt_is_Some_1; by apply Hslot|].
  rewrite !lookup_app_r by lia.
  replace (length (aliases f) + k - length (aliases f))%nat with k by lia.
  replace (pre + k - length (return_blobs f))%nat with k by (unfold pre; lia).
  replace (length (return_blob_names f) + k - length (return_blob_names f))%nat
    with k by lia.
  rewrite list_lookup_imap, Hk. simpl.
  split; [done|]. split; [by apply Kb|by apply Kn].
Qed.

Lemma alias_resolution_keeps_the_returns_in_step_example :
  exists f',
    AliasMutableInputsAndOutputs Demo.attr Demo.frame = Ok f' /\
    length (return_blobs f') = 3%nat /\
    length (return_blob_names f') = 3%nat /\
    length (aliases f') = 1%nat.
Proof.
  destruct (alias_resolution_keeps_the_returns_in_step Demo.attr Demo.frame
              eq_refl ltac:(by vm_compute)) as (f' & Hf & Hb & Hn & Ha & _).
  exists f'. split; [exact Hf|]. split; [exact Hb|]. split; [exact Hn|exact Ha].
Defined.

(** X12. On a cache miss the compiler is called on the entries,
    the ordinary outputs followed by the mutable entries, the output
    names followed by the declared output names and the aliases whose
    output slots start at the number of ordinary outputs; its artifact
    for these arguments is what the cache holds for the signature
    afterwards. *)
Theorem compiler_gets_the_aliased_returns k B w :
  has_xla_launch_conf k = true ->
  cache_get (the_cache w) (signature_of k B) = None ->
  let f0 := initial_frame k B in
  let n_out := length (output_bns k) in
  let x := resolve (launch_attr k) (entry_blob_names f0) (entry_blobs f0) n_out in
  let alias_entries :=
    imap (cast_alias_entry n_out)
      (mutable_slots (launch_attr k) (entry_blob_names f0)) in
  let w' := (ForwardDataContent k B w).2 in
  CallCompile (B <$> input_bns k) ((B <$> output_bns k) ++ x.1.1)
    (entry_blob_name k <$> input_bns k) (output_bns k ++ x.1.2) alias_entries
    ∈ events_since w w' /\
  cache_get (the_cache w') (signature_of k B) =
    Some (Compile k (launch_ctx_of k) (B <$> input_bns k)
            ((B <$> output_bns k) ++ x.1.1)
            (entry_blob_name k <$> input_bns k) (output_bns k ++ x.1.2)
            alias_entries).
Proof.
  intros Hconf Hmiss f0 n_out x alias_entries w'. subst w'.
  destruct (forward_steps k B w Hconf) as (f & cr & w1 & Hf & Hbuild & _ & _).
  pose proof (alias_closed_form (launch_attr k) f0 (initial_frame_sizes k B))
    as Hclosed.
  cbv zeta in Hclosed. fold f0 in Hf, Hclosed.
  assert (Hn : length (return_blobs f0) = n_out).
  { unfold f0, initial_frame, n_out. simpl. by rewrite length_fmap. }
  rewrite Hn in Hclosed. fold x alias_entries in Hclosed.
  assert (Hfeq : f = extend_frame f0 (x.1.1, x.1.2, alias_entries)) by congruence.
  clear Hclosed.
  destruct (build_after_alias k B w f cr w1 Hconf Hf Hbuild) as (_ & _ & _ & Hcr).
  rewrite Hmiss in Hcr.
  destruct (forward_tail k B w f cr w1 Hconf Hf Hbuild) as (tail & Hevs & _).
  destruct (forward_cache k B w Hconf) as (f' & cr' & Hf' & Hget & _).
  fold f0 in Hf'. rewrite Hf in Hf'. inversion Hf'; subst f'. clear Hf'.
  assert (Hcr' : cr' = cr).
  { destruct (forward_steps k B w Hconf) as (f2 & cr2 & w2 & Hf2 & Hb2 & _ & Hrun).
    fold f0 in Hf2. rewrite Hf in Hf2. inversion Hf2; subst f2.
    rewrite Hbuild in Hb2. inversion Hb2; subst cr2 w2.
    destruct (build_after_alias k B w f cr w1 Hconf Hf Hbuild) as (_ & Hg & _).
    assert (Hsame : the_cache (ForwardDataContent k B w).2 = the_cache w1).
    { rewrite Hrun. destruct (_ =? _)%nat; [|done].
      match goal with |- context [LaunchExecutable ?a ?b ?c ?d ?e ?g ?h ?i ?j] =>
        destruct (launch_world a b c d e g h i j) as [[-> _]|(args & _ & ->)] end;
        done. }
    rewrite Hsame, Hg in Hget. by inversion Hget. }
  subst cr'. rewrite Hget, Hcr, Hevs. unfold build_events. rewrite Hmiss.
  rewrite Hfeq. unfold extend_frame, f0, initial_frame. simpl.
  split; [|done]. right. right. left.
Qed.

Lemma compiler_gets_the_aliased_returns_example :
  let k := Demo.kernel kCPU in
  let w' := (ForwardDataContent k Demo.BnInOp2Blob Demo.fresh_world).2 in
  CallCompile Demo.entries [Demo.blob_out; Demo.blob_b] ["a"; "b"; "c"]%string
    ["out"; "b_out"]%string
    [{| output_index := [1]; param_number := 1; param_index := [] |}]
    ∈ events_since Demo.fresh_world w' /\
  cache_get (the_cache w') (signature_of k Demo.BnInOp2Blob) = Some Demo.artifact.
Proof.
  intros k w'.
  exact (compiler_gets_the_aliased_returns (Demo.kernel kCPU) Demo.BnInOp2Blob
           Demo.fresh_world eq_refl eq_refl).
Defined.

(** ** The checks LaunchExecutable can fail *)

(** X13. [LaunchExecutable] fails only on its own checks, in
    program order: the input-shape count, then the return count, then a
    tuple device shape, then, once the arguments are marshalled, the run
    status, the tuple result and the buffer identity. No [v[i]] of lines
    73, 78, 86 and 118 is ever out of range. *)
Theorem launch_fails_only_on_its_checks k ctx exe entries shapes returns
    out_shape block w e :
  (LaunchExecutable k ctx exe entries shapes returns out_shape block w).1 = Fatal e ->
  match e with
  | InputShapesSizeMismatch => length entries <> length shapes
  | NeedOneRealOutput => length entries = length shapes /\ returns = []
  | TupleInputNotAllowed =>
      length entries = length shapes /\ returns <> [] /\
      exists i shape, shapes !! i = Some shape /\
        IsTuple (HostShapeToDeviceShape (client ctx) shape) = true
  | RunFailed | ResultShapeNotTuple | ResultBufferMismatch =>
      length entries = length shapes /\ returns <> [] /\
      exists arguments, marshal_arguments ctx entries shapes returns = Ok arguments
  | _ => False
  end.
Proof.
  intros Hrun.
  pose proof (launch_cases k ctx exe entries shapes returns out_shape block w)
    as Hcases.
  cbv zeta in Hcases.
  destruct (Nat.eqb_spec (length entries) (length shapes)) as [Hlen|Hlen];
    simpl in Hcases.
  2: { rewrite Hcases in Hrun. inversion Hrun; subst. done. }
  destruct returns as [|r returns']; simpl in Hcases.
  { rewrite Hcases in Hrun. inversion Hrun; subst. done. }
  destruct (marshal_arguments ctx entries shapes (r :: returns'))
    as [arguments|e'] eqn:Hm; rewrite Hcases in Hrun; simpl in Hrun.
  - assert (Hran : length entries = length shapes /\ r :: returns' <> [] /\
                   exists a, Ok arguments = Ok a) by eauto.
    destruct (run_status k ctx exe arguments w) as [rr|];
      [|inversion Hrun; subst; done].
    destruct (IsTuple (result_host_shape rr)); [|inversion Hrun; subst; done].
    destruct (translate_results_reused (r :: returns') rr) as [_ [Hr|Hr]];
      rewrite Hr in Hrun; inversion Hrun; subst; done.
  - inversion Hrun; subst.
    apply marshal_arguments_fatal in Hm as [-> Hex]; done.
Qed.

Lemma launch_fails_only_on_its_checks_example :
  (LaunchExecutable (Demo.kernel kCPU) Demo.ctx Demo.exe Demo.entries
     Demo.tuple_shapes Demo.returns (xla_output_shape Demo.artifact) true
     Demo.fresh_world).1 = Fatal TupleInputNotAllowed /\
  length Demo.entries = length Demo.tuple_shapes /\
  Demo.returns <> [] /\
  exists i shape,
    Demo.tuple_shapes !! i = Some shape /\
    IsTuple (HostShapeToDeviceShape (client Demo.ctx) shape) = true.
Proof.
  assert (Hrun : (LaunchExecutable (Demo.kernel kCPU) Demo.ctx Demo.exe
                    Demo.entries Demo.tuple_shapes Demo.returns
                    (xla_output_shape Demo.artifact) true Demo.fresh_world).1
                 = Fatal TupleInputNotAllowed) by reflexivity.
  split; [exact Hrun|].
  exact (launch_fails_only_on_its_checks (Demo.kernel kCPU) Demo.ctx Demo.exe
           Demo.entries Demo.tuple_shapes Demo.returns
           (xla_output_shape Demo.artifact) true Demo.fresh_world
           TupleInputNotAllowed Hrun).
Defined.

(** * MicroKernel construction *)

Lemma micro_kernel_loop_builds this symbols g :
  forall last calls,
    g <> nullptr ->
    (forall s, s ∈ symbols -> MicroKernel.mut_mk_graph s = g) ->
    last = nullptr \/ last = g ->
    MicroKernel.ctor_loop this symbols (last, calls) =
    MicroKernel.Built
      (match symbols with [] => last | _ :: _ => g end,
       calls ++ flat_map (MicroKernel.calls_for this) symbols).
Proof.
  induction symbols as [|s rest IH]; intros last calls Hg Hsame Hlast.
  - simpl. by rewrite app_nil_r.
  - assert (Hs : MicroKernel.mut_mk_graph s = g) by (apply Hsame; left).
    cbn [MicroKernel.ctor_loop]. unfold MicroKernel.ctor_step. rewrite Hs.
    assert (Hcheck : (last =? nullptr) || (last =? g) = true).
    { destruct Hlast as [->| ->]; [done|].
      rewrite Z.eqb_refl. by rewrite orb_true_r. }
    rewrite Hcheck. cbn [negb].
    rewrite (proj2 (Z.eqb_neq g nullptr) Hg).
    rewrite IH; [|done|intros s' Hs'; apply Hsame; by right|by right].
    f_equal. f_equal; [by destruct rest|].
    cbn [flat_map]. unfold MicroKernel.calls_for at 2. rewrite Hs.
    destruct (MicroKernel.mut_producer_mk_node s =? nullptr); simpl;
      by rewrite <- !app_assoc.
Qed.

Lemma micro_kernel_loop_built this symbols :
  forall last calls last' calls',
    MicroKernel.ctor_loop this symbols (last, calls)
      = MicroKernel.Built (last', calls') ->
    (symbols = [] /\ last' = last) \/
    (last' <> nullptr /\
     (forall s, s ∈ symbols -> MicroKernel.mut_mk_graph s = last') /\
     (last = nullptr \/ last = last')).
Proof.
  induction symbols as [|s rest IH]; intros last calls last' calls' Hrun.
  - left. simpl in Hrun. inversion Hrun. done.
  - right. cbn [MicroKernel.ctor_loop] in Hrun.
    unfold MicroKernel.ctor_step in Hrun.
    destruct ((last =? nullptr) || (last =? MicroKernel.mut_mk_graph s))
      eqn:Hcheck; [|done]. cbn [negb] in Hrun.
    destruct (Z.eqb_spec (MicroKernel.mut_mk_graph s) nullptr) as [|Hnull];
      [done|].
    assert (Hlast : last = nullptr \/ last = MicroKernel.mut_mk_graph s).
    { apply orb_true_iff in Hcheck as [H|H]; apply Z.eqb_eq in H; auto. }
    apply IH in Hrun as [[-> ->]|(Hne & Hsame & [Hbad| <-])].
    + split; [done|]. split; [|done].
      intros s' Hs'. apply list_elem_of_singleton in Hs'. by subst.
    + done.
    + split; [done|]. split; [|done].
      intros s' Hs'. apply elem_of_cons in Hs' as [->|Hs']; [done|by apply Hsame].
Qed.

Lemma micro_kernel_loop_aborted this symbols :
  forall last calls e,
    (forall s, s ∈ symbols -> MicroKernel.mut_mk_graph s <> nullptr) ->
    MicroKernel.ctor_loop this symbols (last, calls) = MicroKernel.Aborted e ->
    e = MicroKernel.GraphsDiffer.
Proof.
  induction symbols as [|s rest IH]; intros last calls e Hnn Hrun; [done|].
  cbn [MicroKernel.ctor_loop] in Hrun. unfold MicroKernel.ctor_step in Hrun.
  destruct (negb _); [by inversion Hrun|].
  destruct (Z.eqb_spec (MicroKernel.mut_mk_graph s) nullptr) as [Hnull|_].
  { exfalso. apply (Hnn s); [left|done]. }
  eapply IH; [|exact Hrun]. intros s' Hs'. apply Hnn. by right.
Qed.

(** X14. For input symbols whose graph pointers are not null,
    the constructor of [MicroKernel] aborts on an empty input list,
    completes when the list is not empty and all symbols are of one
    graph, and aborts on the check of line 21 as soon as two symbols are
    of different graphs. *)
Theorem micro_kernel_needs_inputs_of_one_graph this symbols out_name diff_name :
  (forall s, s ∈ symbols -> MicroKernel.mut_mk_graph s <> nullptr) ->
  let run := MicroKernel.construct this symbols out_name diff_name in
  (symbols = [] -> run = MicroKernel.Aborted MicroKernel.InputsEmpty) /\
  (symbols <> [] ->
   (forall s s', s ∈ symbols -> s' ∈ symbols ->
      MicroKernel.mut_mk_graph s = MicroKernel.mut_mk_graph s') ->
   exists calls,
     run = MicroKernel.Built
             (MicroKernel.mkMicroKernel symbols out_name diff_name, calls)) /\
  (forall s s', s ∈ symbols -> s' ∈ symbols ->
     MicroKernel.mut_mk_graph s <> MicroKernel.mut_mk_graph s' ->
     run = MicroKernel.Aborted MicroKernel.GraphsDiffer).
Proof.
  intros Hnn run. subst run. split; [by intros ->|]. split.
  - intros Hne Hsame. destruct symbols as [|s0 rest]; [done|].
    unfold MicroKernel.construct.
    rewrite (micro_kernel_loop_builds this (s0 :: rest)
               (MicroKernel.mut_mk_graph s0)).
    + by eexists.
    + apply Hnn. left.
    + intros s Hs. apply Hsame; [done|left].
    + by left.
  - intros s s' Hs Hs' Hdiff. destruct symbols as [|s0 rest].
    { by apply not_elem_of_nil in Hs. }
    unfold MicroKernel.construct.
    destruct (MicroKernel.ctor_loop this (s0 :: rest) (nullptr, []))
      as [[last calls]|e] eqn:Hrun.
    + exfalso.
      apply micro_kernel_loop_built in Hrun as [[? _]|(_ & Hsame & _)]; [done|].
      apply Hdiff. by rewrite (Hsame s Hs), (Hsame s' Hs').
    + f_equal. by eapply micro_kernel_loop_aborted.
Qed.

Lemma micro_kernel_needs_inputs_of_one_graph_example :
  (exists calls,
     MicroKernel.construct 9
       [MicroKernel.on_graph_5; MicroKernel.produced_on_graph_5]
       "out"%string "out_diff"%string =
     MicroKernel.Built
       (MicroKernel.mkMicroKernel
          [MicroKernel.on_graph_5; MicroKernel.produced_on_graph_5]
          "out"%string "out_diff"%string, calls)) /\
  MicroKernel.construct 9 [MicroKernel.on_graph_5; MicroKernel.on_graph_6]
    "out"%string "out_diff"%string
  = MicroKernel.Aborted MicroKernel.GraphsDiffer.
Proof.
  split.
  - apply (micro_kernel_needs_inputs_of_one_graph 9
             [MicroKernel.on_graph_5; MicroKernel.produced_on_graph_5]).
    + intros s Hs.
      repeat (apply elem_of_cons in Hs as [->|Hs]; [discriminate|]).
      by apply not_elem_of_nil in Hs.
    + discriminate.
    + intros s s' Hs Hs'.
      repeat (apply elem_of_cons in Hs as [->|Hs];
              [repeat (apply elem_of_cons in Hs' as [->|Hs']; [reflexivity|]);
               by apply not_elem_of_nil in Hs'|]).
      by apply not_elem_of_nil in Hs.
  - apply (proj2 (proj2 (micro_kernel_needs_inputs_of_one_graph 9
             [MicroKernel.on_graph_5; MicroKernel.on_graph_6]
             "out"%string "out_diff"%string
             ltac:(intros s Hs;
                   repeat (apply elem_of_cons in Hs as [->|Hs]; [discriminate|]);
                   by apply not_elem_of_nil in Hs)))
             MicroKernel.on_graph_5 MicroKernel.on_graph_6).
    + left.
    + right. left.
    + discriminate.
Defined.

Lemma micro_kernel_calls_count this (l : list MicroKernel.BlobSymbol) :
  (length l <= length (flat_map (MicroKernel.calls_for this) l) <= 2 * length l)%nat.
Proof.
  induction l as [|s l IH]; [simpl; lia|].
  cbn [flat_map]. rewrite length_app. unfold MicroKernel.calls_for at 1 3.
  destruct (MicroKernel.mut_producer_mk_node s =? nullptr); simpl in *; lia.
Qed.

(** X15. A constructed [MicroKernel] keeps its inputs and
    names; all its inputs are of the graph [mut_mk_graph()] returns; it
    has registered itself with that graph once per input symbol, in
    input order, each registration followed by a new edge from the
    symbol's producer node when there is one, and has made no other
    call. *)
Theorem micro_kernel_registers_once_per_input this symbols out_name diff_name
    k calls :
  MicroKernel.construct this symbols out_name diff_name
    = MicroKernel.Built (k, calls) ->
  MicroKernel.input_blob_symbols_ k = symbols /\
  MicroKernel.out_blob_name_ k = out_name /\
  MicroKernel.out_diff_blob_name_ k = diff_name /\
  exists g,
    MicroKernel.kernel_mk_graph k = Some g /\
    (forall s, s ∈ symbols -> MicroKernel.mut_mk_graph s = g) /\
    calls = flat_map (MicroKernel.calls_for this) symbols /\
    (length symbols <= length calls <= 2 * length symbols)%nat /\
    (forall c, c ∈ calls ->
       c = MicroKernel.AddAllocatedNode g this \/
       exists s, s ∈ symbols /\
         MicroKernel.mut_producer_mk_node s <> nullptr /\
         c = MicroKernel.ConnectNewEdge g (MicroKernel.mut_producer_mk_node s) this).
Proof.
  unfold MicroKernel.construct. intros Hrun.
  destruct symbols as [|s0 rest]; [done|].
  remember (s0 :: rest) as symbols eqn:Hsymbols.
  destruct (MicroKernel.ctor_loop this symbols (nullptr, []))
    as [[last calls0]|e] eqn:Hloop; [|done].
  inversion Hrun; subst k calls0. clear Hrun.
  split; [done|]. split; [done|]. split; [done|].
  pose proof Hloop as Hbuilt.
  apply micro_kernel_loop_built in Hbuilt as [[? _]|(Hne & Hsame & _)];
    [congruence|].
  rewrite (micro_kernel_loop_builds this symbols last nullptr [] Hne Hsame)
    in Hloop by (by left).
  assert (Hcalls : calls = flat_map (MicroKernel.calls_for this) symbols)
    by (inversion Hloop; done).
  clear Hloop. subst calls.
  exists last. split.
  { unfold MicroKernel.kernel_mk_graph. cbn [MicroKernel.input_blob_symbols_].
    rewrite Hsymbols. simpl. f_equal. apply Hsame. rewrite Hsymbols. left. }
  split; [done|]. split; [done|]. split; [apply micro_kernel_calls_count|].
  intros c Hc. apply list_elem_of_In, in_flat_map in Hc as (s & Hs & Hc).
  apply list_elem_of_In in Hs. unfold MicroKernel.calls_for in Hc.
  rewrite (Hsame s Hs) in Hc.
  destruct (Z.eqb_spec (MicroKernel.mut_producer_mk_node s) nullptr) as [|Hp].
  - left. destruct Hc as [<-|[]]. done.
  - destruct Hc as [<-|[<-|[]]]; [by left|]. right. eauto.
Qed.

Lemma micro_kernel_registers_once_per_input_example :
  let symbols := [MicroKernel.on_graph_5; MicroKernel.produced_on_graph_5] in
  let k := MicroKernel.mkMicroKernel symbols "out"%string "out_diff"%string in
  let calls :=
    [MicroKernel.AddAllocatedNode 5 9; MicroKernel.AddAllocatedNode 5 9;
     MicroKernel.ConnectNewEdge 5 70 9] in
  MicroKernel.construct 9 symbols "out"%string "out_diff"%string
    = MicroKernel.Built (k, calls) /\
  exists g,
    MicroKernel.kernel_mk_graph k = Some g /\
    calls = flat_map (MicroKernel.calls_for 9) symbols.
Proof.
  intros symbols k calls. split; [reflexivity|].
  destruct (micro_kernel_registers_once_per_input 9 symbols "out"%string
              "out_diff"%string k calls eq_refl)
    as (_ & _ & _ & g & Hg & _ & Hcalls & _).
  exists g. split; [exact Hg|exact Hcalls].
Defined.

(** * Copy operator configurations *)

(** X16. The operator names [NewCopyOpConf] builds determine
    the unique id they were built from, a host-device copy name is never
    a comm-net copy name, and a host-device configuration determines its
    copy type and unique id. *)
Theorem copy_op_names_tell_the_nodes_apart :
  (forall t u t' u',
     CopyTask.name (CopyTask.CopyHd_NewCopyOpConf t u)
       = CopyTask.name (CopyTask.CopyHd_NewCopyOpConf t' u') -> u = u') /\
  (forall u u',
     CopyTask.name (CopyTask.CopyCommNet_NewCopyOpConf u)
       = CopyTask.name (CopyTask.CopyCommNet_NewCopyOpConf u') -> u = u') /\
  (forall t u u',
     CopyTask.name (CopyTask.CopyHd_NewCopyOpConf t u)
       <> CopyTask.name (CopyTask.CopyCommNet_NewCopyOpConf u')) /\
  (forall t u t' u',
     CopyTask.CopyHd_NewCopyOpConf t u = CopyTask.CopyHd_NewCopyOpConf t' u' ->
     t = t' /\ u = u').
Proof.
  split; [|split; [|split]].
  - intros t u t' u' H. simpl in H. by inversion H.
  - intros u u' H. simpl in H. by inversion H.
  - intros t u u' H. simpl in H. inversion H.
  - intros t u t' u' H. inversion H. done.
Qed.
